(** * Element dependency expansion of diskimage-builder

    A shallow embedding of [diskimage_builder/element_dependencies.py]:
    the metadata lookup [_get_set] (with [provides] and [dependencies])
    and the work-list closure [expand_dependencies], followed by the
    properties of the two that the specification states. *)

From Stdlib Require Import ZArith Ascii.
From stdpp Require Import base option list sets gmap strings.

Local Open Scope Z_scope.
Set Warnings "-clear-no-such-hyp".

(** ** Python string and path primitives *)

Module Py.

(** [str.isspace] on the code points below 128 (Python 3): TAB, LF, VT,
    FF, CR, the separators FS GS RS US, and the space. *)
Definition isspace (c : ascii) : bool :=
  let n := Ascii.N_of_ascii c in
  ((9 <=? n) && (n <=? 13) || (28 <=? n) && (n <=? 32))%N.

(** [s.lstrip()] *)
Fixpoint lstrip (s : string) : string :=
  match s with
  | EmptyString => EmptyString
  | String c r => if isspace c then lstrip r else s
  end.

(** [s.rstrip()] *)
Fixpoint rstrip (s : string) : string :=
  match s with
  | EmptyString => EmptyString
  | String c r =>
      match rstrip r with
      | EmptyString => if isspace c then EmptyString else String c EmptyString
      | r' => String c r'
      end
  end.

(** [s.strip()] *)
Definition strip (s : string) : string := rstrip (lstrip s).

(** [s.split(sep)] for a one-character separator: never the empty list,
    and an empty field between two separators is kept. *)
Fixpoint split (sep : ascii) (s : string) : list string :=
  match s with
  | EmptyString => [EmptyString]
  | String c r =>
      if decide (c = sep) then EmptyString :: split sep r
      else match split sep r with
           | h :: t => String c h :: t
           | [] => [String c EmptyString]
           end
  end.

Definition startswith_sep (b : string) : bool :=
  match b with
  | String "/" _ => true
  | _ => false
  end.

Fixpoint endswith_sep (a : string) : bool :=
  match a with
  | EmptyString => false
  | String c EmptyString => bool_decide (c = "/"%char)
  | String _ r => endswith_sep r
  end.

(** One round of the loop of [posixpath.join]: an absolute component
    replaces what came before, otherwise it is appended after one [/]
    (none when the path so far is empty or already ends in one). *)
Definition join_step (path b : string) : string :=
  if startswith_sep b then b
  else if bool_decide (path = EmptyString) || endswith_sep path then path +:+ b
  else path +:+ "/" +:+ b.

(** [os.path.join(a, *p)] *)
Definition os_path_join (a : string) (p : list string) : string :=
  foldl join_step a p.

End Py.

Arguments Py.os_path_join : simpl never.
Arguments Py.split : simpl never.
Arguments Py.strip : simpl never.

(** ** The world the program runs in *)

(** What [open(p)] gives: a file object, seen as the lines it iterates
    (each with its line terminator), or an [IOError] with its [errno]. *)
Inductive open_result :=
| Opened (lines : list string)
| IOError_raised (errno : Z).

Record filesystem := FileSystem {
  fs_open : string → open_result;
  os_path_exists : string → bool
}.

(** The file-system calls a run makes, in order. *)
Inductive fs_access :=
| AccOpen (p : string)
| AccExists (p : string).

(** The ways a call ends without a value. [ElementNotFound],
    [MissingOperatingSystem] and [ConflictingElements] are the three
    [logger.error(...); sys.exit(-1)] exits, carrying what is logged. *)
Inductive failure :=
| ElementsPathNotSet
| IOError (errno : Z)
| ElementNotFound (element elements_dir : string)
| MissingOperatingSystem
| ConflictingElements (report : list (string * list string)).

Inductive outcome (A : Type) :=
| Return (a : A)
| Fail (e : failure)
| OutOfFuel.
Arguments Return {A} a.
Arguments Fail {A} e.
Arguments OutOfFuel {A}.

(** A computation: its outcome and the file-system calls it made. *)
Definition M (A : Type) : Type := outcome A * list fs_access.

Definition ret {A} (a : A) : M A := (Return a, []).
Definition raise {A} (e : failure) : M A := (Fail e, []).
Definition bind {A B} (m : M A) (k : A → M B) : M B :=
  match m with
  | (Return a, t) => let '(r, t') := k a in (r, t ++ t')
  | (Fail e, t) => (Fail e, t)
  | (OutOfFuel, t) => (OutOfFuel, t)
  end.

Notation "'let*' x ':=' m 'in' k" := (bind m (fun x => k))
  (at level 10, x name, m at level 100, k at level 200).

Definition ENOENT : Z := 2.
Definition OPERATING_SYSTEM : string := "operating-system".

Section Program.

Variable fs : filesystem.
(** The value of [$ELEMENTS_PATH], if set. *)
Variable environ_ELEMENTS_PATH : option string.
(** The order in which iterating over a set yields its members. *)
Variable set_iter : gset string → list string.

Definition do_open (p : string) : M open_result := (Return (fs_open fs p), [AccOpen p]).
Definition do_exists (p : string) : M bool := (Return (os_path_exists fs p), [AccExists p]).

Definition get_elements_dir : M string :=
  match environ_ELEMENTS_PATH with
  | None | Some EmptyString => raise ElementsPathNotSet
  | Some d => ret d
  end.

(** The [for path in elements_dir.split(':')] loop of [_get_set] and the
    two lines after it. *)
Fixpoint _get_set_loop (paths : list string) (element fname elements_dir : string)
  : M (gset string) :=
  match paths with
  | [] => raise (ElementNotFound element elements_dir)
  | path :: paths' =>
      let element_deps_path := Py.os_path_join path [element; fname] in
      let* r := do_open element_deps_path in
      match r with
      | Opened lines => ret (list_to_set (Py.strip <$> lines))
      | IOError_raised errno =>
          let* ex := do_exists (Py.os_path_join path [element]) in
          if ex && (errno =? ENOENT) then ret ∅
          else if errno =? ENOENT then _get_set_loop paths' element fname elements_dir
          else raise (IOError errno)
      end
  end.

Definition _get_set (element fname : string) (elements_dir : option string)
  : M (gset string) :=
  let* elements_dir := match elements_dir with
                       | None => get_elements_dir
                       | Some d => ret d
                       end in
  _get_set_loop (Py.split ":" elements_dir) element fname elements_dir.

Definition provides (element : string) (elements_dir : option string) :=
  _get_set element "element-provides" elements_dir.

Definition dependencies (element : string) (elements_dir : option string) :=
  _get_set element "element-deps" elements_dir.

(** The working state of one run of [expand_dependencies]. *)
Record State := mkState {
  final_elements : gset string;
  check_queue : list string;
  provided : gset string;
  provided_by : gmap string (list string)
}.

(** [provided_by[provide]], where a missing key of the [defaultdict(list)]
    reads as the empty list. *)
Definition provided_by_get (pb : gmap string (list string)) (provide : string)
  : list string :=
  default [] (pb !! provide).

(** [for provide in element_provides: provided_by[provide].append(element)] *)
Definition record_providers (element : string) (element_provides : gset string)
    (pb : gmap string (list string)) : gmap string (list string) :=
  foldl (λ pb provide, <[provide := provided_by_get pb provide ++ [element]]> pb)
        pb (set_iter element_provides).

(** The four updates that end the loop body. *)
Definition update_state (element : string) (element_deps element_provides : gset string)
    (st : State) : State :=
  let provided_by' := record_providers element element_provides (provided_by st) in
  let provided' := provided st ∪ element_provides in
  let check_queue' :=
    check_queue st ++ set_iter (element_deps ∖ (final_elements st ∪ provided')) in
  let final_elements' := final_elements st ∪ element_deps in
  mkState final_elements' check_queue' provided' provided_by'.

(** The body of the [while] loop after [element = check_queue.popleft()];
    [st] is the state with the element already taken off the queue. *)
Definition loop_body (elements_dir : option string) (element : string) (st : State)
  : M State :=
  if decide (element ∈ provided st) then ret st
  else
    let* element_deps := dependencies element elements_dir in
    let* element_provides := provides element elements_dir in
    ret (update_state element element_deps element_provides st).

Definition popleft (st : State) (rest : list string) : State :=
  mkState (final_elements st) rest (provided st) (provided_by st).

(** [while check_queue: ...], with a bound on the number of rounds. *)
Fixpoint while_check_queue (fuel : nat) (elements_dir : option string) (st : State)
  : M State :=
  match check_queue st with
  | [] => ret st
  | element :: rest =>
      match fuel with
      | O => (OutOfFuel, [])
      | S fuel' =>
          let* st' := loop_body elements_dir element (popleft st rest) in
          while_check_queue fuel' elements_dir st'
      end
  end.

Definition initial_state (user_elements : list string) : State :=
  mkState (list_to_set user_elements) user_elements ∅ ∅.

(** The lines logged for a conflict: each conflicting element with
    [provided_by[element]]. *)
Definition conflict_report (conflicts : gset string) (pb : gmap string (list string))
  : list (string * list string) :=
  (λ element, (element, provided_by_get pb element)) <$> set_iter conflicts.

(** The checks after the loop and the returned set. *)
Definition validate (user_elements : list string) (st : State) : M (gset string) :=
  if decide (OPERATING_SYSTEM ∉ provided st) then raise MissingOperatingSystem
  else
    let conflicts : gset string := list_to_set user_elements ∩ provided st in
    if decide (conflicts ≠ ∅) then
      raise (ConflictingElements (conflict_report conflicts (provided_by st)))
    else ret (final_elements st ∖ provided st).

Definition expand_dependencies (fuel : nat) (user_elements : list string)
    (elements_dir : option string) : M (gset string) :=
  let* st := while_check_queue fuel elements_dir (initial_state user_elements) in
  validate user_elements st.

End Program.

(** ** Specification vocabulary *)

(** The search passes a directory over when the open fails with "no such
    file" and the element has no entry there: the [continue] branch. *)
Definition passed_over (fs : filesystem) (element fname path : string) : Prop :=
  fs_open fs (Py.os_path_join path [element; fname]) = IOError_raised ENOENT
  ∧ os_path_exists fs (Py.os_path_join path [element]) = false.

(** The two calls made on a directory whose open fails. *)
Definition probe (element fname path : string) : list fs_access :=
  [AccOpen (Py.os_path_join path [element; fname]);
   AccExists (Py.os_path_join path [element])].

(** A line feed, and the lines of a text file with one name per line. *)
Definition LF : string := String (Ascii.ascii_of_nat 10) EmptyString.
Definition text (names : list string) : list string := (λ n, n +:+ LF) <$> names.

(** A file system given by a finite table: what opening each listed path
    gives (any other path: "no such file") and the paths that exist. *)
Definition table_fs (files : list (string * open_result)) (dirs : list string)
  : filesystem :=
  FileSystem
    (λ p, default (IOError_raised ENOENT)
                  (list_to_map (M := gmap string open_result) files !! p))
    (λ p, bool_decide (p ∈ dirs)).

(** *** Sample element trees under the search path [/e] *)

(** Scenario 1 of the specification: [A] depends on [B], and [B]
    provides "operating-system". *)
Definition tree_os_below : filesystem :=
  table_fs [("/e/A/element-deps", Opened (text ["B"]));
            ("/e/B/element-provides", Opened (text ["operating-system"]))]
           ["/e/A"; "/e/B"].

(** Scenario 5: a chain [A], [B], [C] with the provider at its end. *)
Definition tree_chain : filesystem :=
  table_fs [("/e/A/element-deps", Opened (text ["B"]));
            ("/e/B/element-deps", Opened (text ["C"]));
            ("/e/C/element-provides", Opened (text ["operating-system"]))]
           ["/e/A"; "/e/B"; "/e/C"].

(** Scenario 3, with an operating system: [A] provides [V]. *)
Definition tree_conflict : filesystem :=
  table_fs [("/e/A/element-provides", Opened (text ["V"; "operating-system"]))]
           ["/e/A"; "/e/V"].

(** Scenario 3 as written: [A] provides [V] and nothing provides an
    operating system. *)
Definition tree_conflict_no_os : filesystem :=
  table_fs [("/e/A/element-provides", Opened (text ["V"]))] ["/e/A"; "/e/V"].

(** [B] provides [C], which has a dependency of its own. *)
Definition tree_virtual_with_deps : filesystem :=
  table_fs [("/e/A/element-deps", Opened (text ["B"; "C"]));
            ("/e/B/element-provides", Opened (text ["C"; "operating-system"]));
            ("/e/C/element-deps", Opened (text ["D"]))]
           ["/e/A"; "/e/B"; "/e/C"; "/e/D"].

(** The provider of "operating-system" is itself provided, later, by one
    of its dependencies. *)
Definition tree_provider_provided : filesystem :=
  table_fs [("/e/A/element-deps", Opened (text ["B"]));
            ("/e/B/element-deps", Opened (text ["C"]));
            ("/e/B/element-provides", Opened (text ["operating-system"]));
            ("/e/C/element-provides", Opened (text ["B"]))]
           ["/e/A"; "/e/B"; "/e/C"].

(** The search path entry [/e] is a regular file: opening anything below
    it fails with [ENOTDIR], and nothing below it exists. *)
Definition ENOTDIR : Z := 20.
Definition tree_not_a_directory : filesystem :=
  table_fs [("/e/C/element-deps", IOError_raised ENOTDIR)] [].

(** The file-system calls of the run on [A] in [tree_os_below], and of the
    run on [A; B] in [tree_chain]. *)
Definition os_below_trace : list fs_access :=
  [AccOpen "/e/A/element-deps"; AccOpen "/e/A/element-provides"; AccExists "/e/A";
   AccOpen "/e/B/element-deps"; AccExists "/e/B"; AccOpen "/e/B/element-provides"].
Definition chain_trace : list fs_access :=
  [AccOpen "/e/A/element-deps"; AccOpen "/e/A/element-provides"; AccExists "/e/A";
   AccOpen "/e/B/element-deps"; AccOpen "/e/B/element-provides"; AccExists "/e/B";
   AccOpen "/e/C/element-deps"; AccExists "/e/C"; AccOpen "/e/C/element-provides"].

(** The states in which the loop ends on [A] in [tree_os_below], on
    [A; B] in [tree_chain], and on [A; V] in [tree_conflict] and in
    [tree_conflict_no_os]; the latter two make the same calls. *)
Definition os_below_final : State :=
  mkState (list_to_set ["A"; "B"]) [] (list_to_set ["operating-system"])
          (list_to_map [("operating-system", ["B"])]).
Definition chain_final : State :=
  mkState (list_to_set ["A"; "B"; "C"]) [] (list_to_set ["operating-system"])
          (list_to_map [("operating-system", ["C"])]).
Definition conflict_final : State :=
  mkState (list_to_set ["A"; "V"]) [] (list_to_set ["V"; "operating-system"])
          (list_to_map [("V", ["A"]); ("operating-system", ["A"])]).
Definition conflict_no_os_final : State :=
  mkState (list_to_set ["A"; "V"]) [] (list_to_set ["V"])
          (list_to_map [("V", ["A"])]).
Definition conflict_trace : list fs_access :=
  [AccOpen "/e/A/element-deps"; AccExists "/e/A"; AccOpen "/e/A/element-provides"].

(** The state of the run on [A; V] in [tree_conflict] once [A] has been
    expanded: [V] is at the front of the queue and already provided. *)
Definition conflict_midway : State :=
  mkState (list_to_set ["A"; "V"]) ["V"] (list_to_set ["V"; "operating-system"])
          (list_to_map [("V", ["A"]); ("operating-system", ["A"])]).

(** The set order of stdpp, and its reverse. *)
Definition forwards (s : gset string) : list string := elements s.
Definition backwards (s : gset string) : list string := reverse (elements s).

(** An element has been expanded in state [st]: both its files were read,
    its dependencies are collected, its provided names are recorded and it
    is listed as a provider of each of them. *)
Definition processed (fs : filesystem) (env dir : option string) (st : State)
    (x : string) : Prop :=
  ∃ ds t ps t',
    dependencies fs env x dir = (Return ds, t)
    ∧ provides fs env x dir = (Return ps, t')
    ∧ ds ⊆ final_elements st
    ∧ ps ⊆ provided st
    ∧ ∀ name, name ∈ ps → x ∈ provided_by_get (provided_by st) name.

(** What every round of the loop keeps true. *)
Definition closure_inv (fs : filesystem) (env dir : option string) (st : State) : Prop :=
  (∀ x, x ∈ check_queue st → x ∈ final_elements st)
  ∧ (∀ x, x ∈ final_elements st →
          x ∈ provided st ∨ x ∈ check_queue st ∨ processed fs env dir st x)
  ∧ (∀ name, name ∈ provided st ↔ provided_by_get (provided_by st) name ≠ [])
  ∧ (∀ name e, e ∈ provided_by_get (provided_by st) name →
               ∃ ps t, provides fs env e dir = (Return ps, t) ∧ name ∈ ps).

(** A bound on the rounds still to run, for elements drawn from [B]. *)
Definition rounds_left (B : gset string) (st : State) : nat :=
  (length (check_queue st) + size (B ∖ final_elements st))%nat.

(** The elements appended to the queue by [check_queue.extend(...)] in the
    rounds of a run started in [st], in the order they are appended. *)
Fixpoint appended (fs : filesystem) (env : option string)
    (set_iter : gset string → list string) (fuel : nat) (dir : option string)
    (st : State) : list string :=
  match check_queue st, fuel with
  | element :: rest, S fuel' =>
      match loop_body fs env set_iter dir element (popleft st rest) with
      | (Return st', _) =>
          drop (length rest) (check_queue st')
            ++ appended fs env set_iter fuel' dir st'
      | _ => []
      end
  | _, _ => []
  end.

(** An element is required by a request: it is requested, or it is a
    dependency, as the store gives it, of a required element. *)
Inductive required (fs : filesystem) (env dir : option string)
    (user_elements : list string) : string → Prop :=
| required_request x :
    x ∈ user_elements → required fs env dir user_elements x
| required_dependency x y ds t :
    required fs env dir user_elements x →
    dependencies fs env x dir = (Return ds, t) →
    y ∈ ds →
    required fs env dir user_elements y.

(** ** The metadata lookup *)

Section Lookup.

Variable fs : filesystem.
Variable environ_ELEMENTS_PATH : option string.

Local Abbreviation get_set_loop := (_get_set_loop fs).
Local Abbreviation get_set := (_get_set fs environ_ELEMENTS_PATH).

Lemma bind_ret_l {A B} (a : A) (k : A → M B) : bind (ret a) k = k a.
Proof. unfold bind, ret. by destruct (k a). Qed.

Lemma get_set_given element fname d :
  get_set element fname (Some d) = get_set_loop (Py.split ":" d) element fname d.
Proof.
  unfold _get_set, bind, ret.
  destruct (get_set_loop (Py.split ":" d) element fname d) as [r t]. done.
Qed.

Lemma get_set_loop_passed_over path paths element fname d :
  passed_over fs element fname path →
  get_set_loop (path :: paths) element fname d
  = (fst (get_set_loop paths element fname d),
     probe element fname path ++ snd (get_set_loop paths element fname d)).
Proof.
  intros [Hopen Hex]. simpl. unfold do_open, do_exists, bind. simpl.
  rewrite Hopen, Hex. simpl.
  by destruct (get_set_loop paths element fname d).
Qed.

Lemma get_set_loop_skip pre paths element fname d :
  Forall (passed_over fs element fname) pre →
  get_set_loop (pre ++ paths) element fname d
  = (fst (get_set_loop paths element fname d),
     (pre ≫= probe element fname) ++ snd (get_set_loop paths element fname d)).
Proof.
  induction 1 as [|path pre Hp _ IH].
  - simpl. by destruct (get_set_loop paths element fname d).
  - rewrite <- app_comm_cons, (get_set_loop_passed_over _ _ _ _ _ Hp), IH.
    cbn [fst snd mbind list_bind]. by rewrite <- app_assoc.
Qed.

Lemma get_set_loop_opened path paths element fname d lines :
  fs_open fs (Py.os_path_join path [element; fname]) = Opened lines →
  get_set_loop (path :: paths) element fname d
  = (Return (list_to_set (Py.strip <$> lines)),
     [AccOpen (Py.os_path_join path [element; fname])]).
Proof. intros Hopen. simpl. unfold do_open, bind. simpl. by rewrite Hopen. Qed.

Lemma get_set_loop_known path paths element fname d :
  fs_open fs (Py.os_path_join path [element; fname]) = IOError_raised ENOENT →
  os_path_exists fs (Py.os_path_join path [element]) = true →
  get_set_loop (path :: paths) element fname d = (Return ∅, probe element fname path).
Proof.
  intros Hopen Hex. simpl. unfold do_open, do_exists, bind. simpl.
  by rewrite Hopen, Hex.
Qed.

Lemma get_set_loop_ioerror path paths element fname d errno :
  fs_open fs (Py.os_path_join path [element; fname]) = IOError_raised errno →
  errno ≠ ENOENT →
  get_set_loop (path :: paths) element fname d
  = (Fail (IOError errno), probe element fname path).
Proof.
  intros Hopen Hne. simpl. unfold do_open, do_exists, bind. simpl.
  rewrite Hopen. simpl.
  assert ((errno =? ENOENT) = false) as -> by by apply Z.eqb_neq.
  by rewrite andb_false_r.
Qed.

Lemma get_set_loop_not_found paths element fname d e' d' :
  fst (get_set_loop paths element fname d) = Fail (ElementNotFound e' d') →
  Forall (passed_over fs element fname) paths ∧ e' = element ∧ d' = d.
Proof.
  induction paths as [|path paths IH]; simpl.
  - intros [= -> ->]. by split.
  - unfold do_open, do_exists, bind. simpl.
    destruct (fs_open fs (Py.os_path_join path [element; fname])) as [lines|errno] eqn:Hopen;
      simpl; [done|].
    destruct (os_path_exists fs (Py.os_path_join path [element])) eqn:Hex; simpl.
    + destruct (errno =? ENOENT) eqn:He; simpl; [done|done].
    + destruct (errno =? ENOENT) eqn:He; simpl; [|done].
      apply Z.eqb_eq in He as ->.
      destruct (get_set_loop paths element fname d) as [r t] eqn:Hrec. simpl in *.
      intros Hr. destruct (IH Hr) as (Hall & -> & ->).
      split; [|done]. constructor; [by split|done].
Qed.

Lemma get_set_loop_terminates paths element fname d :
  fst (get_set_loop paths element fname d) ≠ OutOfFuel.
Proof.
  induction paths as [|path paths IH]; simpl; [done|].
  unfold do_open, do_exists, bind. simpl.
  destruct (fs_open fs _) as [lines|errno]; simpl; [done|].
  destruct (os_path_exists fs _), (errno =? ENOENT); simpl; try done;
    by destruct (get_set_loop paths element fname d).
Qed.

Lemma strip_LF : Py.strip LF = EmptyString.
Proof. reflexivity. Qed.

(** Whatever set a lookup returns is empty or read from a file. *)
Lemma get_set_loop_Return paths element fname d s t :
  get_set_loop paths element fname d = (Return s, t) →
  s = ∅ ∨ ∃ p lines, fs_open fs p = Opened lines
                     ∧ s = list_to_set (Py.strip <$> lines).
Proof.
  revert t. induction paths as [|path paths IH]; intros t; simpl; [done|].
  unfold do_open, do_exists, bind. simpl.
  destruct (fs_open fs (Py.os_path_join path [element; fname])) as [lines|errno] eqn:Hopen;
    simpl.
  - intros [= <- <-]. right. by exists (Py.os_path_join path [element; fname]), lines.
  - destruct (os_path_exists fs _), (errno =? ENOENT); simpl;
      try (intros [= <- <-]; by left); try done;
      destruct (get_set_loop paths element fname d) as [r t'] eqn:Hrec;
      intros [= -> <-]; by eapply IH.
Qed.

Lemma get_set_Return element fname dir s t :
  get_set element fname dir = (Return s, t) →
  s = ∅ ∨ ∃ p lines, fs_open fs p = Opened lines
                     ∧ s = list_to_set (Py.strip <$> lines).
Proof.
  unfold _get_set, bind.
  destruct (match dir with Some d => ret d | None => get_elements_dir _ end)
    as [[d| |] t1]; [|done..].
  destruct (get_set_loop (Py.split ":" d) element fname d) as [r t2] eqn:Hl.
  intros [= -> <-]. by eapply get_set_loop_Return.
Qed.

(** C5, amended. The directories of the search path are tried in order,
    and one where the open fails with "no such file" and the element has
    no entry is passed over. At the first directory not passed over the
    lookup ends without any call on a later directory: with the set of
    stripped lines when the file opens (a blank line gives the empty
    string), with the empty set when the open fails with "no such file"
    and the element's entry exists, with the [IOError] when the open
    fails otherwise. It fails with [ElementNotFound], naming the element
    and the full search path, exactly when every directory is passed
    over. *)
Theorem lookup_postcondition element fname elements_dir :
  let paths := Py.split ":" elements_dir in
  let lookup := get_set element fname (Some elements_dir) in
  (∀ pre path post,
      paths = pre ++ path :: post →
      Forall (passed_over fs element fname) pre →
      (∀ lines,
          fs_open fs (Py.os_path_join path [element; fname]) = Opened lines →
          lookup = (Return (list_to_set (Py.strip <$> lines)),
                    (pre ≫= probe element fname)
                      ++ [AccOpen (Py.os_path_join path [element; fname])])
          ∧ (∀ line, line ∈ lines →
                     Py.strip line ∈ (list_to_set (Py.strip <$> lines) : gset string))
          ∧ (LF ∈ lines →
             EmptyString ∈ (list_to_set (Py.strip <$> lines) : gset string)))
      ∧ (fs_open fs (Py.os_path_join path [element; fname]) = IOError_raised ENOENT →
         os_path_exists fs (Py.os_path_join path [element]) = true →
         lookup = (Return ∅, (pre ≫= probe element fname) ++ probe element fname path))
      ∧ (∀ errno,
            fs_open fs (Py.os_path_join path [element; fname]) = IOError_raised errno →
            errno ≠ ENOENT →
            lookup = (Fail (IOError errno),
                      (pre ≫= probe element fname) ++ probe element fname path)))
  ∧ (fst lookup = Fail (ElementNotFound element elements_dir)
     ↔ Forall (passed_over fs element fname) paths)
  ∧ (∀ e d, fst lookup = Fail (ElementNotFound e d) → e = element ∧ d = elements_dir).
Proof.
  intros paths lookup. unfold lookup. rewrite get_set_given. fold paths.
  split; [|split].
  - intros pre path post -> Hpre.
    rewrite (get_set_loop_skip _ _ _ _ _ Hpre). split; [|split].
    + intros lines Hopen. rewrite (get_set_loop_opened _ _ _ _ _ _ Hopen). simpl.
      split; [done|]. split.
      * intros line Hline. apply elem_of_list_to_set, list_elem_of_fmap. by exists line.
      * intros Hlf. apply elem_of_list_to_set, list_elem_of_fmap. by exists LF.
    + intros Hopen Hex. by rewrite (get_set_loop_known _ _ _ _ _ Hopen Hex).
    + intros errno Hopen Hne. by rewrite (get_set_loop_ioerror _ _ _ _ _ _ Hopen Hne).
  - split.
    + intros Hnf. by apply get_set_loop_not_found in Hnf as (? & _).
    + intros Hall. rewrite <- (app_nil_r paths), (get_set_loop_skip _ _ _ _ _ Hall).
      done.
  - intros e d Hnf. by apply get_set_loop_not_found in Hnf as (_ & ? & ?).
Qed.

(** *** More on the lookup *)

Lemma get_set_loop_trace path paths element fname d :
  snd (get_set_loop (path :: paths) element fname d)
  = [AccOpen (Py.os_path_join path [element; fname])]
  ∨ ∃ t', snd (get_set_loop (path :: paths) element fname d)
          = probe element fname path ++ t'
          ∧ (t' = [] ∨ t' = snd (get_set_loop paths element fname d)).
Proof.
  cbn [_get_set_loop]. unfold do_open, do_exists, bind, ret, raise. cbn [fst snd].
  destruct (fs_open fs (Py.os_path_join path [element; fname])) as [lines|errno];
    [by left|right].
  destruct (os_path_exists fs _), (errno =? ENOENT); cbn [andb];
    try (exists []; split; [done|by left]).
  destruct (get_set_loop paths element fname d) as [r t']. exists t'.
  split; [done|by right].
Qed.

Lemma get_set_loop_accesses paths element fname d a :
  a ∈ snd (get_set_loop paths element fname d) →
  ∃ path, path ∈ paths
          ∧ (a = AccOpen (Py.os_path_join path [element; fname])
             ∨ a = AccExists (Py.os_path_join path [element])).
Proof.
  induction paths as [|path paths IH].
  - simpl. intros Ha. by apply not_elem_of_nil in Ha.
  - destruct (get_set_loop_trace path paths element fname d)
      as [->|(t' & -> & Ht')].
    + intros ->%list_elem_of_singleton.
      exists path. split; [apply list_elem_of_here|by left].
    + unfold probe. intros [->|[->|Ha]%elem_of_cons]%elem_of_cons.
      * exists path. split; [apply list_elem_of_here|by left].
      * exists path. split; [apply list_elem_of_here|by right].
      * destruct Ht' as [->| ->]; [by apply not_elem_of_nil in Ha|].
        destruct (IH Ha) as (path' & ? & ?). exists path'.
        split; [by apply list_elem_of_further|done].
Qed.

Lemma get_set_loop_accesses_length paths element fname d :
  (length (snd (get_set_loop paths element fname d)) ≤ 2 * length paths)%nat.
Proof.
  induction paths as [|path paths IH]; [simpl; lia|].
  destruct (get_set_loop_trace path paths element fname d)
    as [->|(t' & -> & [->| ->])]; simpl; lia.
Qed.

Lemma lookup_accesses_in element fname elements_dir a :
  a ∈ snd (get_set element fname (Some elements_dir)) →
  ∃ path, path ∈ Py.split ":" elements_dir
          ∧ (a = AccOpen (Py.os_path_join path [element; fname])
             ∨ a = AccExists (Py.os_path_join path [element])).
Proof. rewrite get_set_given. apply get_set_loop_accesses. Qed.

(** X1. A lookup touches the file system only to open
    [path/element/fname] and to test [path/element] for a directory
    [path] of the search path, and makes at most two calls per directory
    of the path. *)
Theorem lookup_accesses_confined element fname elements_dir :
  (∀ a, a ∈ snd (get_set element fname (Some elements_dir)) →
        ∃ path, path ∈ Py.split ":" elements_dir
                ∧ (a = AccOpen (Py.os_path_join path [element; fname])
                   ∨ a = AccExists (Py.os_path_join path [element])))
  ∧ (length (snd (get_set element fname (Some elements_dir)))
     ≤ 2 * length (Py.split ":" elements_dir))%nat.
Proof.
  rewrite get_set_given. split.
  - intros a. apply get_set_loop_accesses.
  - apply get_set_loop_accesses_length.
Qed.

(** What a lookup can fail with: never with the "no such file" error it
    handles. *)
Lemma get_set_loop_failure paths element fname d err :
  fst (get_set_loop paths element fname d) = Fail err →
  (∃ errno, errno ≠ ENOENT ∧ err = IOError errno)
  ∨ err = ElementNotFound element d.
Proof.
  induction paths as [|path paths IH]; simpl.
  - intros [= <-]. by right.
  - unfold do_open, do_exists, bind. simpl.
    destruct (fs_open fs _) as [lines|errno]; simpl; [done|].
    destruct (os_path_exists fs _), (errno =? ENOENT) eqn:He; simpl; try done.
    + intros [= <-]. left. exists errno. split; [by apply Z.eqb_neq|done].
    + destruct (get_set_loop paths element fname d) as [r t']. simpl in *. done.
    + intros [= <-]. left. exists errno. split; [by apply Z.eqb_neq|done].
Qed.

Lemma get_set_failure element fname dir err :
  fst (get_set element fname dir) = Fail err →
  err = ElementsPathNotSet
  ∨ (∃ errno, errno ≠ ENOENT ∧ err = IOError errno)
  ∨ (∃ d, err = ElementNotFound element d
          ∧ Forall (passed_over fs element fname) (Py.split ":" d)
          ∧ (∀ d', dir = Some d' → d = d')).
Proof.
  unfold _get_set, bind.
  destruct dir as [d|]; simpl.
  - destruct (get_set_loop (Py.split ":" d) element fname d) as [r t] eqn:Hl. simpl.
    intros ->. assert (fst (get_set_loop (Py.split ":" d) element fname d) = Fail err) as Hf
      by by rewrite Hl.
    destruct (get_set_loop_failure _ _ _ _ _ Hf) as [?| ->]; [by right; left|].
    right; right. exists d. split; [done|].
    split; [by apply get_set_loop_not_found in Hf as (? & _)|]. by intros d' [= ->].
  - unfold get_elements_dir.
    destruct environ_ELEMENTS_PATH as [[|c d]|]; simpl;
      [intros [= <-]; by left| |intros [= <-]; by left].
    destruct (get_set_loop (Py.split ":" (String c d)) element fname (String c d))
      as [r t] eqn:Hl. simpl.
    intros ->.
    assert (fst (get_set_loop (Py.split ":" (String c d)) element fname (String c d))
            = Fail err) as Hf by by rewrite Hl.
    destruct (get_set_loop_failure _ _ _ _ _ Hf) as [?| ->]; [by right; left|].
    right; right. exists (String c d). split; [done|].
    split; [by apply get_set_loop_not_found in Hf as (? & _)|]. done.
Qed.

(** *** Path construction *)

Lemma join_step_empty b : Py.startswith_sep b = false → Py.join_step EmptyString b = b.
Proof. intros Hb. unfold Py.join_step. by rewrite Hb. Qed.

Lemma join_step_absolute path b : Py.startswith_sep b = true → Py.join_step path b = b.
Proof. intros Hb. unfold Py.join_step. by rewrite Hb. Qed.

(** X2. An element name that starts with [/] escapes the search path,
    and so does any element name under an empty component of the path
    (as left by a doubled or trailing colon): the file opened is
    [element/fname] and the directory tested is [element], whatever the
    directory of the search path. *)
Theorem lookup_path_ignores_directory path element fname :
  Py.startswith_sep element = true
  ∨ (path = EmptyString ∧ Py.startswith_sep element = false) →
  Py.os_path_join path [element; fname] = Py.os_path_join element [fname]
  ∧ Py.os_path_join path [element] = element
  ∧ probe element fname path = probe element fname EmptyString.
Proof.
  intros Hcase.
  assert (Py.join_step path element = element) as Hstep.
  { destruct Hcase as [Habs|[-> Hrel]];
      [by apply join_step_absolute|by apply join_step_empty]. }
  assert (Py.join_step EmptyString element = element) as Hempty.
  { destruct (Py.startswith_sep element) eqn:Hs;
      [by apply join_step_absolute|by apply join_step_empty]. }
  unfold probe, Py.os_path_join. simpl. by rewrite Hstep, Hempty.
Qed.

(** *** Stripped names *)

Lemma lstrip_head s :
  Py.lstrip s = EmptyString
  ∨ ∃ c r, Py.lstrip s = String c r ∧ Py.isspace c = false.
Proof.
  induction s as [|c r IH]; simpl; [by left|].
  destruct (Py.isspace c) eqn:Hc; [done|]. right. by exists c, r.
Qed.

Lemma rstrip_idemp s : Py.rstrip (Py.rstrip s) = Py.rstrip s.
Proof.
  induction s as [|c r IH]; simpl; [done|].
  destruct (Py.rstrip r) as [|c' r'] eqn:Hr.
  - destruct (Py.isspace c) eqn:Hc; simpl; [done|]. by rewrite Hc.
  - simpl in *. by rewrite IH.
Qed.

Lemma rstrip_head c r :
  Py.isspace c = false → ∃ r', Py.rstrip (String c r) = String c r'.
Proof.
  intros Hc. simpl. destruct (Py.rstrip r) as [|c' r'].
  - rewrite Hc. by exists EmptyString.
  - by exists (String c' r').
Qed.

Lemma strip_idemp s : Py.strip (Py.strip s) = Py.strip s.
Proof.
  unfold Py.strip.
  destruct (lstrip_head s) as [->|(c & r & -> & Hc)]; [done|].
  destruct (rstrip_head c r Hc) as [r' Hr']. rewrite Hr'.
  simpl Py.lstrip. rewrite Hc, <- Hr'. apply rstrip_idemp.
Qed.

(** X3. Every name in a set the lookup returns is free of surrounding
    white space: stripping it again changes nothing. *)
Theorem lookup_names_are_stripped element fname dir names t name :
  get_set element fname dir = (Return names, t) →
  name ∈ names →
  Py.strip name = name.
Proof.
  intros Hl Hname.
  destruct (get_set_Return _ _ _ _ _ Hl) as [->|(p & lines & _ & ->)].
  - by apply not_elem_of_empty in Hname.
  - apply elem_of_list_to_set, list_elem_of_fmap in Hname as (line & -> & _).
    apply strip_idemp.
Qed.

(** Without [elements_dir], a lookup uses the value of [$ELEMENTS_PATH]. *)
Lemma get_set_default element fname d :
  environ_ELEMENTS_PATH = Some d → d ≠ EmptyString →
  get_set element fname None = get_set element fname (Some d).
Proof.
  intros Henv Hd. unfold _get_set, get_elements_dir. rewrite Henv.
  destruct d as [|c d]; [done|]. done.
Qed.

End Lookup.

(** ** The expansion loop *)

Section Expansion.

Variable fs : filesystem.
Variable environ_ELEMENTS_PATH : option string.
Variable set_iter : gset string → list string.
Variable elements_dir : option string.

(** Iterating over a set yields each member once, in some order. *)
Hypothesis set_iter_perm : ∀ s, set_iter s ≡ₚ elements s.

Local Abbreviation deps_of e := (dependencies fs environ_ELEMENTS_PATH e elements_dir).
Local Abbreviation provs_of e := (provides fs environ_ELEMENTS_PATH e elements_dir).
Local Abbreviation body := (loop_body fs environ_ELEMENTS_PATH set_iter elements_dir).
Local Abbreviation while fuel :=
  (while_check_queue fs environ_ELEMENTS_PATH set_iter fuel elements_dir).
Local Abbreviation expand fuel user :=
  (expand_dependencies fs environ_ELEMENTS_PATH set_iter fuel user elements_dir).
Local Abbreviation update := (update_state set_iter).
Local Abbreviation inv := (closure_inv fs environ_ELEMENTS_PATH elements_dir).
Local Abbreviation done_with := (processed fs environ_ELEMENTS_PATH elements_dir).

(** *** Set iteration *)

Lemma elem_of_set_iter s x : x ∈ set_iter s ↔ x ∈ s.
Proof. by rewrite set_iter_perm, elem_of_elements. Qed.

Lemma NoDup_set_iter s : NoDup (set_iter s).
Proof. rewrite set_iter_perm. apply NoDup_elements. Qed.

Lemma length_set_iter s : length (set_iter s) = size s.
Proof. by rewrite set_iter_perm. Qed.

(** *** The store never runs out of fuel *)

Lemma get_set_terminates element fname :
  fst (_get_set fs environ_ELEMENTS_PATH element fname elements_dir) ≠ OutOfFuel.
Proof.
  unfold _get_set, bind.
  destruct elements_dir as [d|]; simpl.
  - pose proof (get_set_loop_terminates fs (Py.split ":" d) element fname d).
    by destruct (_get_set_loop _ _ _ _ _).
  - unfold get_elements_dir.
    destruct environ_ELEMENTS_PATH as [[|c d]|]; simpl; try done.
    pose proof (get_set_loop_terminates fs (Py.split ":" (String c d)) element fname (String c d)).
    by destruct (_get_set_loop _ _ _ _ _).
Qed.

(** *** One round *)

Lemma body_skip element st :
  element ∈ provided st → body element st = (Return st, []).
Proof. intros Hin. unfold loop_body. by rewrite decide_True. Qed.

Lemma body_process element st ds t1 ps t2 :
  element ∉ provided st →
  deps_of element = (Return ds, t1) →
  provs_of element = (Return ps, t2) →
  body element st = (Return (update element ds ps st), t1 ++ t2).
Proof.
  intros Hin Hd Hp. unfold loop_body. rewrite decide_False by done.
  unfold bind, ret. rewrite Hd, Hp. by rewrite app_nil_r.
Qed.

Lemma body_Return element st st' t :
  body element st = (Return st', t) →
  (element ∈ provided st ∧ st' = st ∧ t = [])
  ∨ ((element ∉ provided st)
     ∧ ∃ ds t1 ps t2,
         deps_of element = (Return ds, t1)
         ∧ provs_of element = (Return ps, t2)
         ∧ t = t1 ++ t2
         ∧ st' = update element ds ps st).
Proof.
  unfold loop_body. case_decide as Hin.
  - intros [= <- <-]. by left.
  - unfold bind, ret.
    destruct (deps_of element) as [[ds| |] t1] eqn:Hd; [|done..].
    destruct (provs_of element) as [[ps| |] t2] eqn:Hp; [|done..].
    intros [= <- <-]. right. split; [done|].
    exists ds, t1, ps, t2. by rewrite app_nil_r.
Qed.

Lemma body_terminates element st : fst (body element st) ≠ OutOfFuel.
Proof.
  unfold loop_body. case_decide; [done|]. unfold bind, ret.
  pose proof (get_set_terminates element "element-deps") as Hd.
  pose proof (get_set_terminates element "element-provides") as Hp.
  fold (dependencies fs environ_ELEMENTS_PATH element elements_dir) in Hd.
  fold (provides fs environ_ELEMENTS_PATH element elements_dir) in Hp.
  destruct (deps_of element) as [[ds| |] t1]; [|done..].
  by destruct (provs_of element) as [[ps| |] t2].
Qed.

(** *** The loop *)

Lemma while_nil fuel st : check_queue st = [] → while fuel st = (Return st, []).
Proof. intros Hq. destruct fuel; simpl; by rewrite Hq. Qed.

Lemma while_cons fuel st element rest :
  check_queue st = element :: rest →
  while (S fuel) st = (let* st' := body element (popleft st rest) in while fuel st').
Proof. intros Hq. simpl. by rewrite Hq. Qed.

Lemma while_Return_cons fuel st element rest st'' t :
  check_queue st = element :: rest →
  while (S fuel) st = (Return st'', t) →
  ∃ st' t1 t2,
    body element (popleft st rest) = (Return st', t1)
    ∧ while fuel st' = (Return st'', t2)
    ∧ t = t1 ++ t2.
Proof.
  intros Hq. rewrite (while_cons _ _ _ _ Hq). unfold bind.
  destruct (body element (popleft st rest)) as [[st'| |] t1]; [|done..].
  destruct (while fuel st') as [r t2] eqn:Hw.
  intros [= -> <-]. by exists st', t1, t2.
Qed.

(** A property kept by every round holds when the loop ends. *)
Lemma while_invariant (I : State → Prop) :
  (∀ st element rest st' t,
      I st → check_queue st = element :: rest →
      body element (popleft st rest) = (Return st', t) → I st') →
  ∀ fuel st st' t,
    I st → while fuel st = (Return st', t) → I st' ∧ check_queue st' = [].
Proof.
  intros Hstep. induction fuel as [|fuel IH]; intros st st' t HI Hw.
  - simpl in Hw. destruct (check_queue st) eqn:Hq; [|done].
    injection Hw as <- <-. done.
  - destruct (check_queue st) as [|element rest] eqn:Hq.
    + rewrite (while_nil _ _ Hq) in Hw. injection Hw as <- <-. done.
    + destruct (while_Return_cons _ _ _ _ _ _ Hq Hw) as (st1 & t1 & t2 & Hb & Hw' & _).
      eapply IH; [|exact Hw']. eapply Hstep; eauto.
Qed.

(** A loop whose rounds all return and lower a measure runs to its end. *)
Lemma while_total (I : State → Prop) (mu : State → nat) :
  (∀ st element rest,
      I st → check_queue st = element :: rest →
      ∃ st' t, body element (popleft st rest) = (Return st', t)
               ∧ I st' ∧ (mu st' < mu st)%nat) →
  ∀ fuel st, I st → (mu st ≤ fuel)%nat →
    ∃ st' t, while fuel st = (Return st', t) ∧ I st' ∧ check_queue st' = [].
Proof.
  intros Hstep. induction fuel as [|fuel IH]; intros st HI Hmu.
  - destruct (check_queue st) as [|element rest] eqn:Hq.
    + exists st, []. by rewrite while_nil.
    + destruct (Hstep _ _ _ HI Hq) as (? & ? & _ & _ & ?). lia.
  - destruct (check_queue st) as [|element rest] eqn:Hq.
    + exists st, []. by rewrite while_nil.
    + destruct (Hstep _ _ _ HI Hq) as (st1 & t1 & Hb & HI1 & Hlt).
      destruct (IH st1 HI1) as (st' & t2 & Hw & HI' & Hq'); [lia|].
      exists st', (t1 ++ t2). split; [|done].
      rewrite (while_cons _ _ _ _ Hq). unfold bind. by rewrite Hb, Hw.
Qed.

(** More fuel does not change a run that ended. *)
Lemma while_fuel_mono fuel fuel' st r t :
  while fuel st = (r, t) → r ≠ OutOfFuel → (fuel ≤ fuel')%nat →
  while fuel' st = (r, t).
Proof.
  revert fuel' st r t. induction fuel as [|fuel IH]; intros fuel' st r t Hw Hr Hle.
  - simpl in Hw. destruct (check_queue st) eqn:Hq.
    + by rewrite while_nil.
    + by injection Hw as <- <-.
  - destruct (check_queue st) as [|element rest] eqn:Hq.
    + rewrite while_nil in Hw by done. by rewrite while_nil.
    + destruct fuel' as [|fuel']; [lia|].
      rewrite (while_cons _ _ _ _ Hq) in Hw. rewrite (while_cons _ _ _ _ Hq).
      unfold bind in *.
      destruct (body element (popleft st rest)) as [[st1| |] t1]; [|done..].
      destruct (while fuel st1) as [r2 t2] eqn:Hw2.
      injection Hw as <- <-.
      by rewrite (IH fuel' st1 r2 t2 Hw2 Hr ltac:(lia)).
Qed.

(** *** The provider index *)

Lemma provided_by_get_insert (pb : gmap string (list string)) k l name :
  provided_by_get (<[k := l]> pb) name
  = if decide (k = name) then l else provided_by_get pb name.
Proof. unfold provided_by_get. rewrite lookup_insert. by case_decide. Qed.

Lemma provided_by_get_foldl element (l : list string) pb name :
  NoDup l →
  provided_by_get
    (foldl (λ pb provide, <[provide := provided_by_get pb provide ++ [element]]> pb) pb l)
    name
  = provided_by_get pb name ++ (if decide (name ∈ l) then [element] else []).
Proof.
  intros Hnd. revert pb. induction Hnd as [|a l Ha Hnd IH]; intros pb; cbn [foldl].
  - rewrite decide_False by apply not_elem_of_nil. by rewrite app_nil_r.
  - rewrite IH, provided_by_get_insert.
    destruct (decide (a = name)) as [->|Hne].
    + rewrite decide_False by done. rewrite decide_True by apply list_elem_of_here.
      by rewrite app_nil_r.
    + destruct (decide (name ∈ l)) as [Hin|Hin].
      * rewrite decide_True by by apply list_elem_of_further. done.
      * rewrite decide_False; [done|].
        rewrite elem_of_cons. by intros [->|?].
Qed.

Lemma record_providers_get element ps pb name :
  provided_by_get (record_providers set_iter element ps pb) name
  = provided_by_get pb name ++ (if decide (name ∈ ps) then [element] else []).
Proof.
  unfold record_providers. rewrite provided_by_get_foldl by apply NoDup_set_iter.
  destruct (decide (name ∈ ps)) as [Hin|Hin].
  - by rewrite decide_True by by apply elem_of_set_iter.
  - by rewrite decide_False by by rewrite elem_of_set_iter.
Qed.

(** *** The invariant of the loop *)

Lemma inv_initial user_elements : inv (initial_state user_elements).
Proof.
  repeat split; simpl.
  - intros x Hx. by apply elem_of_list_to_set.
  - intros x Hx. right; left. by apply elem_of_list_to_set in Hx.
  - intros Hin. by apply not_elem_of_empty in Hin.
  - intros Hne. unfold provided_by_get in Hne. by rewrite lookup_empty in Hne.
  - intros name e. unfold provided_by_get. rewrite lookup_empty. simpl.
    intros Hin. by apply not_elem_of_nil in Hin.
Qed.

Lemma inv_step st element rest st' t :
  inv st → check_queue st = element :: rest →
  body element (popleft st rest) = (Return st', t) → inv st'.
Proof.
  intros (Hq & Hf & Hp & Hpb) Hqueue Hb.
  destruct (body_Return _ _ _ _ Hb) as [(Hin & -> & _)|(Hnin & ds & t1 & ps & t2 & Hd & Hps & _ & ->)].
  - (* skipped *)
    repeat split; simpl; try (by apply Hp); try (by apply Hpb).
    + intros x Hx. apply Hq. rewrite Hqueue. by apply list_elem_of_further.
    + intros x Hx. destruct (Hf x Hx) as [?|[Hxq|Hdone]]; [by left| |by right; right].
      rewrite Hqueue in Hxq. apply elem_of_cons in Hxq as [->|?]; [by left|by right; left].
  - (* expanded *)
    simpl in Hnin. unfold update_state, closure_inv. simpl. repeat split.
    + intros x [Hx|Hx]%elem_of_app.
      * apply elem_of_union_l, Hq. rewrite Hqueue. by apply list_elem_of_further.
      * apply elem_of_set_iter in Hx. set_solver.
    + intros x Hx.
      assert (processed fs environ_ELEMENTS_PATH elements_dir st x →
              processed fs environ_ELEMENTS_PATH elements_dir
                {| final_elements := final_elements st ∪ ds;
                   check_queue := rest ++ set_iter (ds ∖ (final_elements st ∪ (provided st ∪ ps)));
                   provided := provided st ∪ ps;
                   provided_by := record_providers set_iter element ps (provided_by st) |} x)
        as Hmono.
      { intros (ds' & t' & ps' & t'' & ? & ? & ? & ? & Hl).
        exists ds', t', ps', t''. simpl. repeat split; [done|done|set_solver|set_solver|].
        intros name Hname. rewrite record_providers_get. apply elem_of_app. left. by apply Hl. }
      destruct (decide (x ∈ final_elements st)) as [Hxf|Hxf].
      * destruct (Hf x Hxf) as [?|[Hxq|Hdone]]; [left; set_solver| |right; right; by apply Hmono].
        rewrite Hqueue in Hxq. apply elem_of_cons in Hxq as [->|Hxr].
        -- right; right. exists ds, t1, ps, t2. simpl.
           repeat split; [done|done|set_solver|set_solver|].
           intros name Hname. rewrite record_providers_get, decide_True by done.
           apply elem_of_app. right. apply list_elem_of_here.
        -- right; left. apply elem_of_app. by left.
      * destruct (decide (x ∈ provided st ∪ ps)) as [Hxp|Hxp]; [by left|].
        right; left. apply elem_of_app. right. apply elem_of_set_iter. set_solver.
    + intros Hin. rewrite record_providers_get.
      apply elem_of_union in Hin as [Hin|Hin].
      * apply Hp in Hin. by destruct (provided_by_get (provided_by st) name).
      * rewrite decide_True by done. by destruct (provided_by_get (provided_by st) name).
    + rewrite record_providers_get. intros Hne.
      destruct (decide (name ∈ ps)) as [Hin|Hin]; [set_solver|].
      rewrite app_nil_r in Hne. apply Hp in Hne. set_solver.
    + intros name e. rewrite record_providers_get.
      intros [Hin|Hin]%elem_of_app; [by apply Hpb|].
      destruct (decide (name ∈ ps)) as [Hn|Hn]; [|by apply not_elem_of_nil in Hin].
      apply list_elem_of_singleton in Hin as ->. by exists ps, t2.
Qed.

Lemma inv_final fuel user_elements st t :
  while fuel (initial_state user_elements) = (Return st, t) →
  inv st ∧ check_queue st = [].
Proof.
  apply (while_invariant (closure_inv fs environ_ELEMENTS_PATH elements_dir)).
  - intros. eapply inv_step; eauto.
  - apply inv_initial.
Qed.

(** *** The checks after the loop *)

Lemma expand_of_while fuel user_elements st t :
  while fuel (initial_state user_elements) = (Return st, t) →
  expand fuel user_elements = (fst (validate set_iter user_elements st), t).
Proof.
  intros Hw. unfold expand_dependencies, bind. rewrite Hw.
  unfold validate, raise, ret. repeat case_decide; simpl; by rewrite app_nil_r.
Qed.

Lemma expand_Return fuel user_elements result t :
  expand fuel user_elements = (Return result, t) →
  ∃ st, while fuel (initial_state user_elements) = (Return st, t)
        ∧ OPERATING_SYSTEM ∈ provided st
        ∧ list_to_set user_elements ∩ provided st = (∅ : gset string)
        ∧ result = final_elements st ∖ provided st.
Proof using Type.
  unfold expand_dependencies, bind.
  destruct (while fuel (initial_state user_elements)) as [[st| |] t1] eqn:Hw; [|done..].
  unfold validate, raise, ret.
  destruct (decide (OPERATING_SYSTEM ∉ provided st)) as [Hos|Hos]; [done|].
  destruct (decide (list_to_set user_elements ∩ provided st ≠ (∅ : gset string)))
    as [Hc|Hc]; [done|].
  intros [= <- <-]. exists st. rewrite app_nil_r.
  repeat split; [by apply dec_stable|by apply dec_stable].
Qed.

(** *** Termination *)

Lemma update_rounds_left B element ds ps st :
  ds ⊆ B → (rounds_left B (update element ds ps st) ≤ rounds_left B st)%nat.
Proof.
  intros Hds. unfold rounds_left, update_state. simpl.
  rewrite length_app, length_set_iter.
  set (new := ds ∖ (final_elements st ∪ (provided st ∪ ps))).
  assert (size new + size (B ∖ (final_elements st ∪ ds))
          ≤ size (B ∖ final_elements st))%nat; [|lia].
  rewrite <- size_union by set_solver.
  apply subseteq_size. set_solver.
Qed.

Lemma body_rounds_left B st element rest st' t :
  (∀ e ds t, deps_of e = (Return ds, t) → ds ⊆ B) →
  check_queue st = element :: rest →
  body element (popleft st rest) = (Return st', t) →
  (rounds_left B st' < rounds_left B st)%nat.
Proof.
  intros HB Hq Hb.
  assert (rounds_left B st = S (rounds_left B (popleft st rest))) as ->.
  { unfold rounds_left. simpl. by rewrite Hq. }
  destruct (body_Return _ _ _ _ Hb) as [(_ & -> & _)|(_ & ds & t1 & ps & t2 & Hd & _ & _ & ->)].
  - lia.
  - apply Nat.lt_succ_r, update_rounds_left. by eapply HB.
Qed.

Lemma while_terminates B :
  (∀ e ds t, deps_of e = (Return ds, t) → ds ⊆ B) →
  ∀ fuel st, (rounds_left B st ≤ fuel)%nat → fst (while fuel st) ≠ OutOfFuel.
Proof.
  intros HB. induction fuel as [|fuel IH]; intros st Hle.
  - destruct (check_queue st) as [|element rest] eqn:Hq.
    + by rewrite while_nil.
    + unfold rounds_left in Hle. rewrite Hq in Hle. simpl in Hle. lia.
  - destruct (check_queue st) as [|element rest] eqn:Hq.
    + by rewrite while_nil.
    + rewrite (while_cons _ _ _ _ Hq). unfold bind.
      pose proof (body_terminates element (popleft st rest)) as Hbt.
      destruct (body element (popleft st rest)) as [[st'| |] t1] eqn:Hb; [|done..].
      pose proof (body_rounds_left B _ _ _ _ _ HB Hq Hb) as Hlt.
      specialize (IH st' ltac:(lia)).
      by destruct (while fuel st') as [r t2].
Qed.

(** *** What a finished run has collected *)

Lemma while_grows fuel st st' t :
  while fuel st = (Return st', t) →
  final_elements st ⊆ final_elements st' ∧ provided st ⊆ provided st'.
Proof.
  intros Hw.
  apply (while_invariant
           (λ s, final_elements st ⊆ final_elements s ∧ provided st ⊆ provided s)
           ) with (fuel := fuel) (st := st) (t := t); [|done|done].
  intros s element rest s' t' [Hf Hp] Hq Hb.
  destruct (body_Return _ _ _ _ Hb) as [(_ & -> & _)|(_ & ds & t1 & ps & t2 & _ & _ & _ & ->)].
  - done.
  - unfold update_state. simpl. set_solver.
Qed.

(** The collected sets stay inside any sets closed under the store. *)
Lemma while_bounded (G H : gset string) fuel user_elements st t :
  list_to_set user_elements ⊆ G →
  (∀ x ds tx, x ∈ G → deps_of x = (Return ds, tx) → ds ⊆ G) →
  (∀ x ps tx, x ∈ G → provs_of x = (Return ps, tx) → ps ⊆ H) →
  while fuel (initial_state user_elements) = (Return st, t) →
  final_elements st ⊆ G ∧ provided st ⊆ H.
Proof.
  intros Hu HG HH Hw.
  cut ((final_elements st ⊆ G ∧ provided st ⊆ H
        ∧ ∀ x, x ∈ check_queue st → x ∈ final_elements st) ∧ check_queue st = []).
  { intros [(? & ? & _) _]. done. }
  apply (while_invariant
           (λ s, final_elements s ⊆ G ∧ provided s ⊆ H
                 ∧ ∀ x, x ∈ check_queue s → x ∈ final_elements s))
    with (fuel := fuel) (st := initial_state user_elements) (t := t); [| |done].
  - intros s element rest s' t' (Hf & Hp & Hq) Hqueue Hb.
    assert (element ∈ G) as HeG.
    { apply Hf, Hq. rewrite Hqueue. apply list_elem_of_here. }
    assert (∀ x, x ∈ rest → x ∈ final_elements s) as Hrest.
    { intros x Hx. apply Hq. rewrite Hqueue. by apply list_elem_of_further. }
    destruct (body_Return _ _ _ _ Hb) as [(_ & -> & _)|(_ & ds & t1 & ps & t2 & Hd & Hps & _ & ->)].
    + done.
    + pose proof (HG _ _ _ HeG Hd). pose proof (HH _ _ _ HeG Hps).
      unfold update_state. simpl. split; [set_solver|]. split; [set_solver|].
      intros x [Hx|Hx%elem_of_set_iter]%elem_of_app; [|set_solver].
      apply elem_of_union_l. by apply Hrest.
  - simpl. split; [done|]. split; [set_solver|].
    intros x Hx. by apply elem_of_list_to_set.
Qed.

(** Every element left in the result of a finished run was expanded. *)
Lemma survivors_processed fuel user_elements st t x :
  while fuel (initial_state user_elements) = (Return st, t) →
  x ∈ final_elements st → x ∉ provided st → done_with st x.
Proof.
  intros Hw Hxf Hxp.
  destruct (inv_final _ _ _ _ Hw) as ((_ & Hf & _ & _) & Hq).
  destruct (Hf x Hxf) as [?|[Hxq|?]]; [done| |done].
  rewrite Hq in Hxq. by apply not_elem_of_nil in Hxq.
Qed.

(** No element of a returned closure provides a member of it: the
    condition under which the specification states idempotence holds after
    every successful run. *)
Lemma closure_provides_outside fuel user_elements result t x y ps tx :
  expand fuel user_elements = (Return result, t) →
  x ∈ result → y ∈ result → provs_of x = (Return ps, tx) → y ∉ ps.
Proof.
  intros Hex Hx Hy Hps.
  destruct (expand_Return _ _ _ _ Hex) as (st & Hw & _ & _ & ->).
  apply elem_of_difference in Hx as [Hxf Hxp]. apply elem_of_difference in Hy as [_ Hyp].
  destruct (survivors_processed _ _ _ _ _ Hw Hxf Hxp)
    as (_ & _ & ps' & tx' & _ & Hps' & _ & Hsub & _).
  rewrite Hps in Hps'. injection Hps' as <- <-. set_solver.
Qed.

(** *** Properties of one run *)

(** C1. Closure completeness: when [expand_dependencies] returns a set,
    the store answered for every element [x] of that set, and every
    dependency of [x] is in the returned set or in the final [provided]
    set. *)
Theorem closure_completeness fuel user_elements result t :
  expand fuel user_elements = (Return result, t) →
  ∃ st, while fuel (initial_state user_elements) = (Return st, t)
        ∧ ∀ x, x ∈ result →
            ∃ ds tx, deps_of x = (Return ds, tx)
                     ∧ ∀ d, d ∈ ds → d ∈ result ∨ d ∈ provided st.
Proof.
  intros Hex. destruct (expand_Return _ _ _ _ Hex) as (st & Hw & _ & _ & ->).
  exists st. split; [done|].
  destruct (inv_final _ _ _ _ Hw) as ((_ & Hf & _ & _) & Hq).
  intros x [Hxf Hxp]%elem_of_difference.
  destruct (Hf x Hxf) as [?|[Hxq|(ds & tx & _ & _ & Hd & _ & Hsub & _)]]; [done| |].
  - rewrite Hq in Hxq. by apply not_elem_of_nil in Hxq.
  - exists ds, tx. split; [done|]. intros d Hd'.
    destruct (decide (d ∈ provided st)); [by right|left].
    apply elem_of_difference. split; [by apply Hsub|done].
Qed.

(** C2. Subset law: the returned set is [final_elements - provided] of
    the state the loop ended in, and shares no member with [provided]. *)
Theorem result_disjoint_from_provided fuel user_elements result t :
  expand fuel user_elements = (Return result, t) →
  ∃ st, while fuel (initial_state user_elements) = (Return st, t)
        ∧ result = final_elements st ∖ provided st
        ∧ result ∩ provided st = ∅.
Proof using Type.
  intros Hex. destruct (expand_Return _ _ _ _ Hex) as (st & Hw & _ & _ & ->).
  exists st. repeat split; [done|]. clear set_iter_perm. set_solver.
Qed.

(** C3. Operating-system validation: once the loop has ended, the call
    fails with [MissingOperatingSystem] exactly when "operating-system"
    is not in [provided]; this check comes first, so a run that also has
    conflicts still reports [MissingOperatingSystem]. *)
Theorem operating_system_checked_first fuel user_elements st t :
  while fuel (initial_state user_elements) = (Return st, t) →
  (expand fuel user_elements = (Fail MissingOperatingSystem, t)
   ↔ "operating-system" ∉ provided st)
  ∧ ("operating-system" ∉ provided st →
     list_to_set user_elements ∩ provided st ≠ (∅ : gset string) →
     expand fuel user_elements = (Fail MissingOperatingSystem, t)).
Proof.
  intros Hw. rewrite (expand_of_while _ _ _ _ Hw). unfold validate, raise, ret.
  change OPERATING_SYSTEM with "operating-system".
  destruct (decide ("operating-system" ∉ provided st)) as [Hos|Hos].
  - done.
  - split; [|done]. split; [|done].
    case_decide; simpl; by intros [=].
Qed.

(** C4. Conflict detection: once the operating-system check has passed,
    the call fails with [ConflictingElements] exactly when a requested
    element is in [provided]; the report lists exactly the conflicting
    names, each with [provided_by[name]], a non-empty list of elements
    whose provides file declares the name, among them every such
    element of [final_elements - provided]. *)
Theorem conflict_detection fuel user_elements st t :
  while fuel (initial_state user_elements) = (Return st, t) →
  "operating-system" ∈ provided st →
  let conflicts : gset string := list_to_set user_elements ∩ provided st in
  ((∃ report, expand fuel user_elements = (Fail (ConflictingElements report), t))
   ↔ conflicts ≠ ∅)
  ∧ ∀ report,
      expand fuel user_elements = (Fail (ConflictingElements report), t) →
      (∀ name providers,
          (name, providers) ∈ report
          ↔ name ∈ conflicts ∧ providers = provided_by_get (provided_by st) name)
      ∧ ∀ name, name ∈ conflicts →
          provided_by_get (provided_by st) name ≠ []
          ∧ (∀ e, e ∈ provided_by_get (provided_by st) name →
                  ∃ ps te, provs_of e = (Return ps, te) ∧ name ∈ ps)
          ∧ (∀ e ps te, e ∈ final_elements st ∖ provided st →
                  provs_of e = (Return ps, te) → name ∈ ps →
                  e ∈ provided_by_get (provided_by st) name).
Proof.
  intros Hw Hos conflicts. rewrite (expand_of_while _ _ _ _ Hw).
  unfold validate, raise, ret. change OPERATING_SYSTEM with "operating-system".
  rewrite decide_False by by intros ?.
  fold conflicts. destruct (decide (conflicts ≠ ∅)) as [Hc|Hc]; simpl.
  - split; [split; [done|eauto]|].
    intros report [= <-]. split.
    + intros name providers. unfold conflict_report. rewrite list_elem_of_fmap. split.
      * intros (x & [= -> ->] & Hx%elem_of_set_iter). done.
      * intros [Hn ->]. exists name. split; [done|by apply elem_of_set_iter].
    + intros name [_ Hnp]%elem_of_intersection.
      destruct (inv_final _ _ _ _ Hw) as ((_ & Hf & Hp & Hpb) & Hq).
      split; [by apply Hp|]. split; [by apply Hpb|].
      intros e ps te [Hef Hep]%elem_of_difference Hprov Hname.
      destruct (Hf e Hef) as [?|[Heq|(ds & tx & ps' & te' & _ & Hprov' & _ & _ & Hl)]]; [done| |].
      * rewrite Hq in Heq. by apply not_elem_of_nil in Heq.
      * rewrite Hprov in Hprov'. injection Hprov' as <- <-. by apply Hl.
  - split; [|by intros report [=]]. split; [by intros [report [=]]|done].
Qed.

(** C6. Skip-if-provided: when the element taken from the front of the
    queue is already in [provided], the round makes no file-system call
    and changes nothing but the queue, which loses its front. *)
Theorem skip_if_provided st element rest :
  check_queue st = element :: rest →
  element ∈ provided st →
  ∃ st', body element (popleft st rest) = (Return st', [])
         ∧ check_queue st' = rest
         ∧ final_elements st' = final_elements st
         ∧ provided st' = provided st
         ∧ provided_by st' = provided_by st
         ∧ ∀ fuel, while (S fuel) st = while fuel st'.
Proof.
  intros Hq Hin. exists (popleft st rest).
  assert (body element (popleft st rest) = (Return (popleft st rest), [])) as Hb
    by by apply body_skip.
  repeat split; [done|].
  intros fuel. rewrite (while_cons _ _ _ _ Hq). unfold bind. rewrite Hb.
  by destruct (while fuel (popleft st rest)).
Qed.

(** More fuel does not change a call that ended. *)
Lemma expand_fuel_mono fuel fuel' user_elements r t :
  expand fuel user_elements = (r, t) → r ≠ OutOfFuel → (fuel ≤ fuel')%nat →
  expand fuel' user_elements = (r, t).
Proof using Type.
  unfold expand_dependencies, bind. intros Hex Hr Hle.
  destruct (while fuel (initial_state user_elements)) as [r1 t1] eqn:Hw.
  assert (r1 ≠ OutOfFuel) as Hr1.
  { intros ->. injection Hex as <- _. done. }
  by rewrite (while_fuel_mono _ _ _ _ _ Hw Hr1 Hle).
Qed.

(** What one round appends is new to [final_elements] and joins it. *)
Lemma body_appends st element rest st' t :
  check_queue st = element :: rest →
  body element (popleft st rest) = (Return st', t) →
  ∃ new, check_queue st' = rest ++ new
         ∧ NoDup new
         ∧ (∀ x, x ∈ new → (x ∉ final_elements st) ∧ x ∈ final_elements st')
         ∧ final_elements st ⊆ final_elements st'.
Proof.
  intros Hq Hb.
  destruct (body_Return _ _ _ _ Hb) as [(_ & -> & _)|(_ & ds & t1 & ps & t2 & _ & _ & _ & ->)].
  - exists []. simpl. rewrite app_nil_r.
    split; [done|]. split; [apply NoDup_nil_2|]. split; [|done].
    intros x Hx. by apply not_elem_of_nil in Hx.
  - eexists. unfold update_state. simpl. split; [done|].
    split; [apply NoDup_set_iter|]. split; [|set_solver].
    intros x Hx%elem_of_set_iter. set_solver.
Qed.

(** Over a whole run no element is appended twice, and none that was in
    [final_elements] at the start. *)
Lemma appended_fresh fuel st :
  NoDup (appended fs environ_ELEMENTS_PATH set_iter fuel elements_dir st)
  ∧ ∀ x, x ∈ appended fs environ_ELEMENTS_PATH set_iter fuel elements_dir st →
         x ∉ final_elements st.
Proof.
  assert (∀ st' : State, NoDup (@nil string) ∧ ∀ x, x ∈ @nil string → x ∉ final_elements st')
    as Hnone.
  { intros st'. split; [apply NoDup_nil_2|]. intros x Hx. by apply not_elem_of_nil in Hx. }
  revert st. induction fuel as [|fuel IH]; intros st.
  - simpl. destruct (check_queue st); apply Hnone.
  - simpl. destruct (check_queue st) as [|element rest] eqn:Hq; [apply Hnone|].
    destruct (body element (popleft st rest)) as [[st'| |] t] eqn:Hb;
      [|apply Hnone..].
    destruct (body_appends _ _ _ _ _ Hq Hb) as (new & Hq' & Hnd & Hnew & Hmono).
    destruct (IH st') as [Hnd' Hfresh'].
    rewrite Hq', drop_app_length. split.
    + apply NoDup_app. split; [done|]. split; [|done].
      intros x Hx Hx'. apply (Hfresh' x Hx'). by apply Hnew.
    + intros x [Hx|Hx]%elem_of_app.
      * by apply Hnew.
      * intros Hxf. apply (Hfresh' x Hx). by apply Hmono.
Qed.

(** C9. Termination: when every dependency set the store returns lies in
    a finite set [U], the call ends within
    [len(user_elements) + |U - set(user_elements)|] rounds. Over a run no
    element is appended to the queue twice, and none that was requested:
    in a round the appended elements are distinct, were not in
    [final_elements] before and are in it afterwards, and [final_elements]
    never shrinks. *)
Theorem expansion_terminates (U : gset string) :
  (∀ e ds t, deps_of e = (Return ds, t) → ds ⊆ U) →
  (∀ user_elements fuel,
      (length user_elements + size (U ∖ list_to_set user_elements) ≤ fuel)%nat →
      fst (expand fuel user_elements) ≠ OutOfFuel)
  ∧ (∀ user_elements fuel,
        NoDup (appended fs environ_ELEMENTS_PATH set_iter fuel elements_dir
                 (initial_state user_elements))
        ∧ ∀ x, x ∈ appended fs environ_ELEMENTS_PATH set_iter fuel elements_dir
                     (initial_state user_elements) →
               x ∉ user_elements)
  ∧ (∀ st element rest st' t,
        check_queue st = element :: rest →
        body element (popleft st rest) = (Return st', t) →
        ∃ new, check_queue st' = rest ++ new
               ∧ NoDup new
               ∧ (∀ x, x ∈ new → (x ∉ final_elements st) ∧ x ∈ final_elements st')
               ∧ final_elements st ⊆ final_elements st').
Proof.
  intros HU. split; [|split].
  - intros user_elements fuel Hfuel.
    pose proof (while_terminates U HU fuel (initial_state user_elements) Hfuel) as Hw.
    unfold expand_dependencies, bind.
    destruct (while fuel (initial_state user_elements)) as [[st| |] t1]; [|done..].
    unfold validate, raise, ret. by repeat case_decide.
  - intros user_elements fuel.
    destruct (appended_fresh fuel (initial_state user_elements)) as [Hnd Hfresh].
    split; [done|]. intros x Hx Hxu. apply (Hfresh x Hx). simpl.
    by apply elem_of_list_to_set.
  - intros st element rest st' t. apply body_appends.
Qed.

(** C10. Empty request: with no requested element the loop body never
    runs, no file-system call is made, [provided] stays empty and the
    call fails with [MissingOperatingSystem], whatever the fuel. *)
Theorem empty_request_fails fuel :
  while fuel (initial_state []) = (Return (initial_state []), [])
  ∧ provided (initial_state []) = ∅
  ∧ expand fuel [] = (Fail MissingOperatingSystem, []).
Proof.
  assert (while fuel (initial_state []) = (Return (initial_state []), [])) as Hw
    by by apply while_nil.
  repeat split; [done|].
  rewrite (expand_of_while _ _ _ _ Hw). unfold validate. simpl.
  rewrite decide_True; [done|]. apply not_elem_of_empty.
Qed.

(** *** Where a run fails *)

Lemma body_Fail element st err :
  fst (body element st) = Fail err →
  (element ∉ provided st)
  ∧ (fst (deps_of element) = Fail err ∨ fst (provs_of element) = Fail err).
Proof using Type.
  unfold loop_body. case_decide as Hin; [done|]. unfold bind, ret.
  destruct (deps_of element) as [[ds| |] t1] eqn:Hd; simpl; [| |done].
  - destruct (provs_of element) as [[ps| |] t2] eqn:Hp; simpl; [done| |done].
    intros [= <-]. split; [done|by right].
  - intros [= <-]. split; [done|by left].
Qed.

(** A failing loop fails in the round of some reachable state. *)
Lemma while_Fail (I : State → Prop) :
  (∀ st element rest st' t,
      I st → check_queue st = element :: rest →
      body element (popleft st rest) = (Return st', t) → I st') →
  ∀ fuel st err t,
    I st → while fuel st = (Fail err, t) →
    ∃ st0 element rest,
      I st0 ∧ check_queue st0 = element :: rest
      ∧ fst (body element (popleft st0 rest)) = Fail err.
Proof using Type.
  intros Hstep. induction fuel as [|fuel IH]; intros st err t HI Hw.
  - simpl in Hw. by destruct (check_queue st).
  - destruct (check_queue st) as [|element rest] eqn:Hq.
    + by rewrite while_nil in Hw.
    + rewrite (while_cons _ _ _ _ Hq) in Hw. unfold bind in Hw.
      destruct (body element (popleft st rest)) as [[st'| |] t1] eqn:Hb; [| |done].
      * destruct (while fuel st') as [r t2] eqn:Hw'. injection Hw as -> _.
        eapply IH; [|exact Hw']. eapply Hstep; eauto.
      * injection Hw as <- _. exists st, element, rest. by rewrite Hb.
Qed.


Lemma failure_kinds_loop fuel user_elements err t :
  expand fuel user_elements = (Fail err, t) →
  (∀ e d, err = ElementNotFound e d →
          while fuel (initial_state user_elements) = (Fail err, t)).
Proof using Type.
  unfold expand_dependencies, bind.
  destruct (while fuel (initial_state user_elements)) as [[st| |] t1] eqn:Hw; [| |done].
  - unfold validate, raise, ret. intros Hv e d ->. by repeat case_decide.
  - by intros [= <- <-].
Qed.

(** *** What is collected is required *)

Lemma required_step user_elements st element rest st' t :
  (∀ x, x ∈ check_queue st → required fs environ_ELEMENTS_PATH elements_dir user_elements x) →
  check_queue st = element :: rest →
  body element (popleft st rest) = (Return st', t) →
  ∀ x, x ∈ check_queue st' → required fs environ_ELEMENTS_PATH elements_dir user_elements x.
Proof.
  intros Hq Hqueue Hb x Hx.
  destruct (body_Return _ _ _ _ Hb) as [(_ & -> & _)|(_ & ds & t1 & ps & t2 & Hd & _ & _ & ->)].
  - apply Hq. rewrite Hqueue. by apply list_elem_of_further.
  - unfold update_state in Hx. simpl in Hx. apply elem_of_app in Hx as [Hx|Hx].
    + apply Hq. rewrite Hqueue. by apply list_elem_of_further.
    + apply elem_of_set_iter in Hx.
      apply (required_dependency _ _ _ _ element x ds t1); [|done|set_solver].
      apply Hq. rewrite Hqueue. apply list_elem_of_here.
Qed.

(** X5. Nothing is collected without a reason: when a call returns, every
    element of [final_elements], so every element of the result, is
    required by the request, and every name in [provided] is declared in
    the provides file of a required element. *)
Theorem result_is_required fuel user_elements result t :
  expand fuel user_elements = (Return result, t) →
  ∃ st, while fuel (initial_state user_elements) = (Return st, t)
        ∧ (∀ x, x ∈ final_elements st →
                required fs environ_ELEMENTS_PATH elements_dir user_elements x)
        ∧ (∀ x, x ∈ result →
                required fs environ_ELEMENTS_PATH elements_dir user_elements x)
        ∧ (∀ name, name ∈ provided st →
                   ∃ e ps te,
                     required fs environ_ELEMENTS_PATH elements_dir user_elements e
                     ∧ provs_of e = (Return ps, te) ∧ name ∈ ps).
Proof.
  intros Hex. destruct (expand_Return _ _ _ _ Hex) as (st & Hw & _ & _ & ->).
  exists st. split; [done|].
  pose (R := required fs environ_ELEMENTS_PATH elements_dir user_elements).
  destruct (while_invariant
              (λ s, (∀ x, x ∈ check_queue s → R x)
                    ∧ (∀ x, x ∈ final_elements s → R x)
                    ∧ (∀ name, name ∈ provided s →
                               ∃ e ps te, R e ∧ provs_of e = (Return ps, te) ∧ name ∈ ps)))
    with (fuel := fuel) (st := initial_state user_elements) (st' := st) (t := t)
    as [(_ & Hf & Hp) _]; [| |done|].
  - intros s element rest s' t' (Hq & Hf & Hp) Hqueue Hb.
    split; [by eapply required_step|].
    assert (R element) as Hel by (apply Hq; rewrite Hqueue; apply list_elem_of_here).
    destruct (body_Return _ _ _ _ Hb)
      as [(_ & -> & _)|(_ & ds & t1 & ps & t2 & Hd & Hps & _ & ->)]; [done|].
    unfold update_state. simpl. split.
    + intros x [Hx|Hx]%elem_of_union; [by apply Hf|].
      by apply (required_dependency _ _ _ _ element x ds t1).
    + intros name [Hn|Hn]%elem_of_union; [by apply Hp|]. by exists element, ps, t2.
  - simpl. split; [|split].
    + intros x Hx. by apply required_request.
    + intros x Hx%elem_of_list_to_set. by apply required_request.
    + intros name Hn. by apply not_elem_of_empty in Hn.
  - split; [done|]. split; [intros x [? _]%elem_of_difference; by apply Hf|done].
Qed.

(** X6. [ElementNotFound] names an element the request requires and the
    search path in use, and no directory of that path has an entry for
    the element. *)
Theorem element_not_found_is_absent fuel user_elements e d t :
  expand fuel user_elements = (Fail (ElementNotFound e d), t) →
  required fs environ_ELEMENTS_PATH elements_dir user_elements e
  ∧ (∀ d', elements_dir = Some d' → d = d')
  ∧ Forall (λ path, os_path_exists fs (Py.os_path_join path [e]) = false)
           (Py.split ":" d).
Proof.
  intros Hex.
  pose proof (failure_kinds_loop fuel user_elements (ElementNotFound e d) t Hex e d eq_refl)
    as Hw.
  destruct (while_Fail
              (λ s, ∀ x, x ∈ check_queue s →
                         required fs environ_ELEMENTS_PATH elements_dir user_elements x))
    with (fuel := fuel) (st := initial_state user_elements)
         (err := ElementNotFound e d) (t := t)
    as (st0 & element & rest & Hq & Hqueue & Hb); [| |done|].
  - intros. by eapply required_step.
  - simpl. intros x Hx. by apply required_request.
  - assert (required fs environ_ELEMENTS_PATH elements_dir user_elements element) as Hel
      by (apply Hq; rewrite Hqueue; apply list_elem_of_here).
    destruct (body_Fail _ _ _ Hb) as [_ [Hf|Hf]];
      apply get_set_failure in Hf as [?|[(? & _ & ?)|(d0 & [= -> ->] & Hall & Hd)]];
      try done.
    all: split; [done|]; split; [done|];
      eapply Forall_impl; [exact Hall|]; by intros path [_ ?].
Qed.

(** *** The shape of a result *)

(** X7. What is requested is returned: when a call returns, the result
    contains every requested element, and never "operating-system". *)
Theorem result_keeps_request fuel user_elements result t :
  expand_dependencies fs environ_ELEMENTS_PATH set_iter fuel user_elements elements_dir
  = (Return result, t) →
  (∀ x, x ∈ user_elements → x ∈ result)
  ∧ "operating-system" ∉ result.
Proof.
  intros Hex. destruct (expand_Return _ _ _ _ Hex) as (st & Hw & Hos & Hconf & ->).
  pose proof (while_grows _ _ _ _ Hw) as [Hu _]. simpl in Hu.
  change OPERATING_SYSTEM with "operating-system" in Hos.
  split; [|set_solver].
  intros x Hx%(elem_of_list_to_set (C := gset string)). set_solver.
Qed.

(** *** What a run never undoes *)

(** X8. Nothing collected is lost: over the rounds of a run
    [final_elements] and [provided] only grow, and each list of
    [provided_by] is only extended at its end. *)
Theorem run_only_adds fuel st st' t :
  while fuel st = (Return st', t) →
  final_elements st ⊆ final_elements st'
  ∧ provided st ⊆ provided st'
  ∧ ∀ name, provided_by_get (provided_by st) name
            `prefix_of` provided_by_get (provided_by st') name.
Proof.
  intros Hw.
  destruct (while_invariant
              (λ s, final_elements st ⊆ final_elements s
                    ∧ provided st ⊆ provided s
                    ∧ ∀ name, provided_by_get (provided_by st) name
                              `prefix_of` provided_by_get (provided_by s) name))
    with (fuel := fuel) (st := st) (st' := st') (t := t) as [? _]; [| |done|done].
  - intros s element rest s' t' (Hf & Hp & Hpb) Hq Hb.
    destruct (body_Return _ _ _ _ Hb) as [(_ & -> & _)|(_ & ds & t1 & ps & t2 & _ & _ & _ & ->)].
    + done.
    + unfold update_state. simpl. split; [set_solver|]. split; [set_solver|].
      intros name. rewrite record_providers_get.
      etransitivity; [apply Hpb|]. by apply prefix_app_r.
  - done.
Qed.

(** *** Providers are listed once *)

(** X9. When the request lists no element twice, no element is expanded
    twice: in the state the loop ends in, no list of [provided_by] names
    a provider twice. *)
Theorem providers_listed_once fuel user_elements st t :
  NoDup user_elements →
  while fuel (initial_state user_elements) = (Return st, t) →
  ∀ name, NoDup (provided_by_get (provided_by st) name).
Proof.
  intros Hnd Hw.
  destruct (while_invariant
              (λ s, NoDup (check_queue s)
                    ∧ (∀ x, x ∈ check_queue s → x ∈ final_elements s)
                    ∧ ∀ name, NoDup (provided_by_get (provided_by s) name)
                              ∧ ∀ e, e ∈ provided_by_get (provided_by s) name →
                                     e ∈ final_elements s ∧ e ∉ check_queue s))
    with (fuel := fuel) (st := initial_state user_elements) (st' := st) (t := t)
    as [(_ & _ & Hpb) _]; [| |done|].
  - intros s element rest s' t' (Hndq & Hq & Hpb) Hqueue Hb.
    rewrite Hqueue in Hndq. apply NoDup_cons in Hndq as [Hel Hndr].
    assert (element ∈ final_elements s) as Helf
      by (apply Hq; rewrite Hqueue; apply list_elem_of_here).
    assert (∀ x, x ∈ rest → x ∈ final_elements s) as Hrest.
    { intros x Hx. apply Hq. rewrite Hqueue. by apply list_elem_of_further. }
    assert (∀ name e, e ∈ provided_by_get (provided_by s) name →
                      e ∈ final_elements s ∧ e ≠ element ∧ e ∉ rest) as Hold.
    { intros name e He. destruct (Hpb name) as [_ Hin]. destruct (Hin e He) as [? Hnq].
      rewrite Hqueue in Hnq. apply not_elem_of_cons in Hnq as [? ?]. done. }
    destruct (body_Return _ _ _ _ Hb) as [(_ & -> & _)|(_ & ds & t1 & ps & t2 & _ & _ & _ & ->)].
    + simpl. split; [done|]. split; [done|].
      intros name. split; [by apply Hpb|].
      intros e He. destruct (Hold name e He) as (? & _ & ?). done.
    + unfold update_state. simpl.
      set (new := set_iter (ds ∖ (final_elements s ∪ (provided s ∪ ps)))).
      assert (∀ x, x ∈ new → x ∈ ds ∧ x ∉ final_elements s) as Hnew.
      { intros x Hx%elem_of_set_iter. set_solver. }
      split; [|split].
      * apply NoDup_app. split; [done|]. split; [|apply NoDup_set_iter].
        intros x Hx Hx'. destruct (Hnew x Hx') as [_ Hnf]. apply Hnf. by apply Hrest.
      * intros x [Hx|Hx]%elem_of_app.
        -- apply elem_of_union_l. by apply Hrest.
        -- apply elem_of_union_r. by apply Hnew.
      * intros name. rewrite record_providers_get. split.
        -- apply NoDup_app. split; [by apply Hpb|]. split.
           ++ intros e He He'. destruct (decide (name ∈ ps)); [|by apply not_elem_of_nil in He'].
              apply list_elem_of_singleton in He' as ->.
              destruct (Hold name element He) as (_ & ? & _). done.
           ++ destruct (decide (name ∈ ps)); [apply NoDup_singleton|apply NoDup_nil_2].
        -- intros e [He|He]%elem_of_app.
           ++ destruct (Hold name e He) as (Hef & _ & Her).
              split; [by apply elem_of_union_l|].
              intros [?|Hx]%elem_of_app; [done|]. by destruct (Hnew e Hx).
           ++ destruct (decide (name ∈ ps)); [|by apply not_elem_of_nil in He].
              apply list_elem_of_singleton in He as ->.
              split; [by apply elem_of_union_l|].
              intros [?|Hx]%elem_of_app; [done|]. by destruct (Hnew element Hx).
  - simpl. split; [done|]. split.
    + intros x Hx. by apply elem_of_list_to_set.
    + intros name. unfold provided_by_get. rewrite lookup_empty. simpl.
      split; [apply NoDup_nil_2|]. intros e He. by apply not_elem_of_nil in He.
  - intros name. by apply Hpb.
Qed.

(** *** What a call touches *)

Lemma snd_bind {A B} (m : M A) (k : A → M B) a :
  a ∈ snd (bind m k) →
  a ∈ snd m ∨ ∃ x, fst m = Return x ∧ a ∈ snd (k x).
Proof using Type.
  unfold bind. destruct m as [[x| |] t]; simpl; [|by left..].
  destruct (k x) as [r t'] eqn:Hk. simpl.
  intros [?|?]%elem_of_app; [by left|right]. exists x. by rewrite Hk.
Qed.

Lemma body_accesses element st a :
  a ∈ snd (body element st) → a ∈ snd (deps_of element) ∨ a ∈ snd (provs_of element).
Proof using Type.
  unfold loop_body. case_decide; [intros Ha; by apply not_elem_of_nil in Ha|].
  intros [?|(ds & _ & [?|(ps & _ & Ha)]%snd_bind)]%snd_bind; [by left|by right|].
  by apply not_elem_of_nil in Ha.
Qed.

Lemma while_accesses (I : State → Prop) (P : fs_access → Prop) :
  (∀ st element rest st' t,
      I st → check_queue st = element :: rest →
      body element (popleft st rest) = (Return st', t) → I st') →
  (∀ st element rest a,
      I st → check_queue st = element :: rest →
      a ∈ snd (body element (popleft st rest)) → P a) →
  ∀ fuel st a, I st → a ∈ snd (while fuel st) → P a.
Proof using Type.
  intros Hstep Hacc. induction fuel as [|fuel IH]; intros st a HI.
  - simpl. destruct (check_queue st); intros Ha; by apply not_elem_of_nil in Ha.
  - destruct (check_queue st) as [|element rest] eqn:Hq.
    + rewrite while_nil by done. intros Ha. by apply not_elem_of_nil in Ha.
    + rewrite (while_cons _ _ _ _ Hq).
      intros [Ha|(st' & Hb & Ha)]%snd_bind; [by eapply Hacc|].
      destruct (body element (popleft st rest)) as [r t] eqn:Hbody.
      simpl in Hb. subst r.
      eapply IH; [|exact Ha]. by eapply Hstep.
Qed.

(** X12. A call touches the file system only for what the request
    requires: every call it makes opens [path/e/element-deps] or
    [path/e/element-provides], or tests [path/e], for a directory [path]
    of the search path and an element [e] required by the request,
    whether the call returns or fails. *)
Theorem expansion_accesses_confined d fuel user_elements a :
  elements_dir = Some d →
  a ∈ snd (expand fuel user_elements) →
  ∃ e path,
    required fs environ_ELEMENTS_PATH elements_dir user_elements e
    ∧ path ∈ Py.split ":" d
    ∧ (a = AccOpen (Py.os_path_join path [e; "element-deps"])
       ∨ a = AccOpen (Py.os_path_join path [e; "element-provides"])
       ∨ a = AccExists (Py.os_path_join path [e])).
Proof.
  intros Hdir. unfold expand_dependencies.
  intros [Ha|(st & _ & Ha)]%snd_bind.
  - revert Ha.
    apply (while_accesses
             (λ s, ∀ x, x ∈ check_queue s →
                        required fs environ_ELEMENTS_PATH elements_dir user_elements x)
             (λ a, ∃ e path,
                required fs environ_ELEMENTS_PATH elements_dir user_elements e
                ∧ path ∈ Py.split ":" d
                ∧ (a = AccOpen (Py.os_path_join path [e; "element-deps"])
                   ∨ a = AccOpen (Py.os_path_join path [e; "element-provides"])
                   ∨ a = AccExists (Py.os_path_join path [e])))).
    + intros. by eapply required_step.
    + intros st element rest a' Hq Hqueue Ha'.
      assert (required fs environ_ELEMENTS_PATH elements_dir user_elements element) as Hel
        by (apply Hq; rewrite Hqueue; apply list_elem_of_here).
      apply body_accesses in Ha'. unfold dependencies, provides in Ha'.
      rewrite Hdir in Ha'.
      destruct Ha' as [Ha'|Ha'];
        apply lookup_accesses_in in Ha' as (path & Hpath & [-> | ->]);
        exists element, path; (split; [done|]); (split; [done|]); eauto.
    + simpl. intros x Hx. by apply required_request.
  - unfold validate, raise, ret in Ha. repeat case_decide; by apply not_elem_of_nil in Ha.
Qed.

End Expansion.

(** ** Two runs over the same store *)

Section Reruns.

Variable fs : filesystem.
Variable environ_ELEMENTS_PATH : option string.
Variable elements_dir : option string.
(** The set orders of the first and of the second run. *)
Variables set_iter1 set_iter2 : gset string → list string.
Hypothesis set_iter1_perm : ∀ s, set_iter1 s ≡ₚ elements s.
Hypothesis set_iter2_perm : ∀ s, set_iter2 s ≡ₚ elements s.

Local Abbreviation deps_of e := (dependencies fs environ_ELEMENTS_PATH e elements_dir).
Local Abbreviation provs_of e := (provides fs environ_ELEMENTS_PATH e elements_dir).
Local Abbreviation while1 fuel :=
  (while_check_queue fs environ_ELEMENTS_PATH set_iter1 fuel elements_dir).
Local Abbreviation while2 fuel :=
  (while_check_queue fs environ_ELEMENTS_PATH set_iter2 fuel elements_dir).
Local Abbreviation expand1 fuel user :=
  (expand_dependencies fs environ_ELEMENTS_PATH set_iter1 fuel user elements_dir).
Local Abbreviation expand2 fuel user :=
  (expand_dependencies fs environ_ELEMENTS_PATH set_iter2 fuel user elements_dir).

(** A run that starts inside sets [F] and [P] closed under the store,
    with no member of [F] in [P], expands every element it meets, ends,
    and stays inside [F] and [P]. *)
Lemma rerun_inside (F P : gset string) user_elements fuel :
  (∀ x, x ∈ F → ∃ ds t ps t',
      deps_of x = (Return ds, t) ∧ provs_of x = (Return ps, t')
      ∧ ds ⊆ F ∧ ps ⊆ P) →
  F ∩ P = ∅ →
  list_to_set user_elements ⊆ F →
  (rounds_left F (initial_state user_elements) ≤ fuel)%nat →
  ∃ st t, while2 fuel (initial_state user_elements) = (Return st, t)
          ∧ final_elements st ⊆ F ∧ provided st ⊆ P.
Proof.
  intros Hclosed Hdisj Huser Hfuel.
  destruct (while_total fs environ_ELEMENTS_PATH set_iter2 elements_dir
              (λ s, final_elements s ⊆ F ∧ provided s ⊆ P
                    ∧ ∀ x, x ∈ check_queue s → x ∈ final_elements s)
              (rounds_left F)) with (fuel := fuel) (st := initial_state user_elements)
    as (st & t & Hw & (Hf & Hp & _) & _); [| |done|by exists st, t].
  - intros s element rest (Hf & Hp & Hq) Hqueue.
    assert (element ∈ F) as HeF.
    { apply Hf, Hq. rewrite Hqueue. apply list_elem_of_here. }
    destruct (Hclosed _ HeF) as (ds & t1 & ps & t2 & Hd & Hps & Hds & Hpsub).
    assert (element ∉ provided (popleft s rest)) as Hnin by (simpl; set_solver).
    exists (update_state set_iter2 element ds ps (popleft s rest)), (t1 ++ t2).
    split; [by apply body_process|]. split.
    + unfold update_state. simpl. split; [set_solver|]. split; [set_solver|].
      intros x [Hx|Hx]%elem_of_app.
      * apply elem_of_union_l, Hq. rewrite Hqueue. by apply list_elem_of_further.
      * apply (elem_of_set_iter set_iter2 set_iter2_perm) in Hx. set_solver.
    + pose proof (update_rounds_left set_iter2 set_iter2_perm F element ds ps
                    (popleft s rest) Hds) as Hle.
      assert (rounds_left F s = S (rounds_left F (popleft s rest))) as ->; [|lia].
      unfold rounds_left. simpl. by rewrite Hqueue.
  - simpl. split; [done|]. split; [set_solver|].
    intros x Hx. by apply elem_of_list_to_set.
Qed.

Lemma processed_inside st x :
  processed fs environ_ELEMENTS_PATH elements_dir st x →
  ∃ ds t ps t',
    deps_of x = (Return ds, t) ∧ provs_of x = (Return ps, t')
    ∧ ds ⊆ final_elements st ∧ ps ⊆ provided st.
Proof. intros (ds & t & ps & t' & ? & ? & ? & ? & _). by exists ds, t, ps, t'. Qed.

(** C7, amended. Order independence when nothing is subtracted: if one
    run ends its loop with no member of [final_elements] in [provided],
    then a run over the same requested set in any other order (of the
    request and of the sets) ends its loop with the same [final_elements]
    and the same [provided], and has the same outcome. *)
Theorem order_independence_when_nothing_provided_away
    user_elements1 user_elements2 fuel1 st1 t1 :
  list_to_set user_elements1 = (list_to_set user_elements2 : gset string) →
  while1 fuel1 (initial_state user_elements1) = (Return st1, t1) →
  final_elements st1 ∩ provided st1 = ∅ →
  ∃ fuel2 st2 t2,
    while2 fuel2 (initial_state user_elements2) = (Return st2, t2)
    ∧ final_elements st2 = final_elements st1
    ∧ provided st2 = provided st1
    ∧ fst (expand2 fuel2 user_elements2) = fst (expand1 fuel1 user_elements1).
Proof.
  intros Huser Hw1 Hdisj.
  pose proof (while_grows _ _ _ _ set_iter1_perm _ _ _ _ Hw1) as [Hu1 _]. simpl in Hu1.
  assert (∀ x, x ∈ final_elements st1 →
               processed fs environ_ELEMENTS_PATH elements_dir st1 x) as Hdone1.
  { intros x Hx. eapply survivors_processed; [exact set_iter1_perm|exact Hw1|done|set_solver]. }
  destruct (rerun_inside (final_elements st1) (provided st1) user_elements2
              (rounds_left (final_elements st1) (initial_state user_elements2)))
    as (st2 & t2 & Hw2 & Hf2 & Hp2); [|done|set_solver|done|].
  { intros x Hx. by apply processed_inside, Hdone1. }
  pose proof (while_grows _ _ _ _ set_iter2_perm _ _ _ _ Hw2) as [Hu2 _]. simpl in Hu2.
  assert (∀ x, x ∈ final_elements st2 →
               processed fs environ_ELEMENTS_PATH elements_dir st2 x) as Hdone2.
  { intros x Hx. eapply survivors_processed; [exact set_iter2_perm|exact Hw2|done|set_solver]. }
  destruct (while_bounded fs environ_ELEMENTS_PATH set_iter1 elements_dir set_iter1_perm
              (final_elements st2) (provided st2) fuel1 user_elements1 st1 t1)
    as [Hf1 Hp1]; [set_solver| | |done|].
  { intros x ds tx Hx Hd.
    destruct (processed_inside _ _ (Hdone2 x Hx)) as (ds' & t' & _ & _ & Hd' & _ & ? & _).
    rewrite Hd in Hd'. by injection Hd' as <- <-. }
  { intros x ps tx Hx Hps.
    destruct (processed_inside _ _ (Hdone2 x Hx)) as (_ & _ & ps' & t' & _ & Hps' & _ & ?).
    rewrite Hps in Hps'. by injection Hps' as <- <-. }
  assert (final_elements st2 = final_elements st1) as Hfeq by set_solver.
  assert (provided st2 = provided st1) as Hpeq by set_solver.
  exists (rounds_left (final_elements st1) (initial_state user_elements2)), st2, t2.
  repeat split; [done..|].
  rewrite (expand_of_while _ _ _ _ _ _ _ _ Hw1), (expand_of_while _ _ _ _ _ _ _ _ Hw2).
  simpl. unfold validate. rewrite Hfeq, Hpeq.
  destruct (decide (OPERATING_SYSTEM ∉ provided st1)); [done|].
  rewrite !decide_False; [done| |].
  - intros Hc. apply Hc. set_solver.
  - intros Hc. apply Hc. set_solver.
Qed.

(** C8, amended. Idempotence when the providers survive: if a run
    returns a closure, no element of the closure provides another one,
    and every name in the final [provided] set is provided by some
    element of the closure, then a run requesting the closure (listed in
    any order) returns the same closure. *)
Theorem idempotence_when_providers_survive
    user_elements fuel1 st1 t1 result user_elements2 :
  while1 fuel1 (initial_state user_elements) = (Return st1, t1) →
  expand1 fuel1 user_elements = (Return result, t1) →
  (∀ x y ps tx, x ∈ result → y ∈ result → provs_of x = (Return ps, tx) → y ∉ ps) →
  (∀ name, name ∈ provided st1 →
           ∃ x ps tx, x ∈ result ∧ provs_of x = (Return ps, tx) ∧ name ∈ ps) →
  list_to_set user_elements2 = result →
  ∃ fuel2 t2, expand2 fuel2 user_elements2 = (Return result, t2).
Proof.
  intros Hw1 Hex1 _ Hprov Huser2.
  destruct (expand_Return _ _ _ _ _ _ _ _ Hex1) as (st & Hw & Hos & Hconf & Hres).
  rewrite Hw1 in Hw. injection Hw as <-.
  assert (∀ x, x ∈ result →
               processed fs environ_ELEMENTS_PATH elements_dir st1 x) as Hdone1.
  { intros x Hx. rewrite Hres in Hx. apply elem_of_difference in Hx as [? ?].
    eapply survivors_processed; [exact set_iter1_perm|exact Hw1|done|done]. }
  set (I := λ s : State,
         result ⊆ final_elements s ∧ final_elements s ⊆ final_elements st1
         ∧ provided s ⊆ provided st1
         ∧ ∃ l1 l2, check_queue s = l1 ++ l2
                    ∧ (∀ x, x ∈ l1 → x ∈ result)
                    ∧ (∀ x, x ∈ l2 → (x ∉ result) ∧ x ∈ final_elements s)
                    ∧ (∀ x, x ∈ result →
                            x ∈ l1 ∨ ∃ ps tx, provs_of x = (Return ps, tx)
                                              ∧ ps ⊆ provided s)).
  set (fuel2 := rounds_left (final_elements st1) (initial_state user_elements2)).
  destruct (while_total fs environ_ELEMENTS_PATH set_iter2 elements_dir
              I (rounds_left (final_elements st1)))
    with (fuel := fuel2) (st := initial_state user_elements2)
    as (st2 & t2 & Hw2 & (Hr2 & Hf2 & Hp2 & l1 & l2 & Hq2 & _ & _ & Hall) & Hnil);
    [| |done|].
  - (* every round returns, keeps [I] and lowers the measure *)
    intros s element rest (HRf & Hf & Hp & l1 & l2 & Hq & Hl1 & Hl2 & Hall) Hqueue.
    assert (rounds_left (final_elements st1) s
            = S (rounds_left (final_elements st1) (popleft s rest))) as Hmu.
    { unfold rounds_left. simpl. by rewrite Hqueue. }
    destruct l1 as [|e l1].
    + (* the request is used up: the element is not in the closure *)
      simpl in Hq. rewrite Hqueue in Hq. subst l2.
      destruct (Hl2 element (list_elem_of_here _ _)) as [HeR HeF].
      assert (element ∈ provided st1) as HeP1.
      { destruct (decide (element ∈ provided st1)); [done|].
        exfalso. apply HeR. rewrite Hres. set_solver. }
      destruct (Hprov _ HeP1) as (x & ps & tx & HxR & Hps & Hin).
      destruct (Hall x HxR) as [Hx|(ps' & tx' & Hps' & Hsub)];
        [by apply not_elem_of_nil in Hx|].
      rewrite Hps in Hps'. injection Hps' as <- <-.
      exists (popleft s rest), []. split; [apply body_skip; simpl; set_solver|].
      split; [|lia].
      unfold I. simpl. split; [done|]. split; [done|]. split; [done|].
      exists [], rest. split; [done|]. split.
      { intros y Hy. by apply not_elem_of_nil in Hy. }
      split; [|done].
      intros y Hy. by apply Hl2, list_elem_of_further.
    + (* an element of the request: it is expanded *)
      simpl in Hq. rewrite Hqueue in Hq. injection Hq as <- ->.
      assert (element ∈ result) as HeR by apply Hl1, list_elem_of_here.
      destruct (processed_inside _ _ (Hdone1 _ HeR))
        as (ds & td & ps & tp & Hd & Hps & Hds & Hpsub).
      assert (element ∉ provided (popleft s (l1 ++ l2))) as Hnin.
      { simpl. rewrite Hres in HeR. set_solver. }
      exists (update_state set_iter2 element ds ps (popleft s (l1 ++ l2))), (td ++ tp).
      split; [by apply body_process|]. split.
      * unfold I, update_state. simpl. split; [set_solver|]. split; [set_solver|].
        split; [set_solver|].
        exists l1, (l2 ++ set_iter2 (ds ∖ (final_elements s ∪ (provided s ∪ ps)))).
        split; [by rewrite app_assoc|]. split.
        { intros x Hx. by apply Hl1, list_elem_of_further. }
        split.
        { intros x [Hx|Hx]%elem_of_app.
          - destruct (Hl2 x Hx). split; [done|set_solver].
          - apply (elem_of_set_iter set_iter2 set_iter2_perm) in Hx. set_solver. }
        intros x HxR. destruct (Hall x HxR) as [Hx|(ps' & tx' & Hps' & Hsub)].
        { apply elem_of_cons in Hx as [->|Hx]; [|by left].
          right. exists ps, tp. split; [done|set_solver]. }
        right. exists ps', tx'. split; [done|set_solver].
      * pose proof (update_rounds_left set_iter2 set_iter2_perm (final_elements st1)
                      element ds ps (popleft s (l1 ++ l2)) Hds). lia.
  - (* the initial state *)
    unfold I. simpl. rewrite Huser2.
    pose proof (while_grows _ _ _ _ set_iter1_perm _ _ _ _ Hw1) as [_ _].
    split; [done|]. split; [rewrite Hres; set_solver|]. split; [set_solver|].
    exists user_elements2, []. rewrite app_nil_r. split; [done|]. split.
    { intros x Hx. rewrite <- Huser2. by apply elem_of_list_to_set. }
    split.
    { intros x Hx. by apply not_elem_of_nil in Hx. }
    intros x Hx. left. rewrite <- Huser2 in Hx. by apply elem_of_list_to_set in Hx.
  - (* the checks after the loop *)
    exists fuel2, t2. rewrite (expand_of_while _ _ _ _ _ _ _ _ Hw2). f_equal.
    rewrite Hq2 in Hnil. apply app_eq_nil in Hnil as [-> ->].
    assert (provided st2 = provided st1) as Hpeq.
    { apply set_eq. intros name. split; [by apply Hp2|]. intros Hname.
      destruct (Hprov _ Hname) as (x & ps & tx & HxR & Hps & Hin).
      destruct (Hall x HxR) as [Hx|(ps' & tx' & Hps' & Hsub)];
        [by apply not_elem_of_nil in Hx|].
      rewrite Hps in Hps'. injection Hps' as <- <-. by apply Hsub. }
    unfold validate. rewrite Hpeq, Huser2.
    rewrite decide_False by by intros ?.
    rewrite decide_False; [simpl; f_equal; set_solver|].
    intros Hc. apply Hc. rewrite Hres. set_solver.
Qed.

End Reruns.

(** ** File systems given by a table *)

Lemma table_fs_opened files dirs p lines :
  fs_open (table_fs files dirs) p = Opened lines → (p, Opened lines) ∈ files.
Proof.
  simpl. destruct (list_to_map (M := gmap string open_result) files !! p) as [r|] eqn:Hl;
    simpl; [|done].
  intros ->. by apply elem_of_list_to_map_2 in Hl.
Qed.

(** Every name a lookup can return is written in one of the files. *)
Lemma table_fs_names_within files dirs env dir (U : gset string) :
  Forall (λ entry, ∀ lines, entry.2 = Opened lines →
                            list_to_set (Py.strip <$> lines) ⊆ U) files →
  ∀ e ds t, dependencies (table_fs files dirs) env e dir = (Return ds, t) → ds ⊆ U.
Proof.
  intros Hall e ds t Hd. apply get_set_Return in Hd as [->|(p & lines & Hopen & ->)].
  - apply empty_subseteq.
  - apply table_fs_opened in Hopen. rewrite Forall_forall in Hall.
    by apply (Hall _ Hopen lines).
Qed.

Lemma forwards_perm s : forwards s ≡ₚ elements s.
Proof. done. Qed.

Lemma backwards_perm s : backwards s ≡ₚ elements s.
Proof. apply reverse_Permutation. Qed.

(** ** The properties at work on the sample trees *)

Lemma closure_completeness_witness :
  expand_dependencies tree_chain None forwards 5 ["A"; "B"] (Some "/e")
  = (Return {["A"; "B"; "C"]}, chain_trace)
  ∧ ∃ st,
      while_check_queue tree_chain None forwards 5 (Some "/e") (initial_state ["A"; "B"])
      = (Return st, chain_trace)
      ∧ ∀ x, x ∈ ({["A"; "B"; "C"]} : gset string) →
          ∃ ds tx, dependencies tree_chain None x (Some "/e") = (Return ds, tx)
                   ∧ ∀ d, d ∈ ds → d ∈ ({["A"; "B"; "C"]} : gset string) ∨ d ∈ provided st.
Proof.
  assert (expand_dependencies tree_chain None forwards 5 ["A"; "B"] (Some "/e")
          = (Return {["A"; "B"; "C"]}, chain_trace)) as Hrun
    by (vm_compute; reflexivity).
  split; [exact Hrun|].
  exact (closure_completeness tree_chain None forwards (Some "/e") forwards_perm
           5 ["A"; "B"] {["A"; "B"; "C"]} chain_trace Hrun).
Defined.

Lemma result_disjoint_from_provided_witness :
  expand_dependencies tree_os_below None forwards 5 ["A"] (Some "/e")
  = (Return {["A"; "B"]}, os_below_trace)
  ∧ ∃ st,
      while_check_queue tree_os_below None forwards 5 (Some "/e") (initial_state ["A"])
      = (Return st, os_below_trace)
      ∧ ({["A"; "B"]} : gset string) = final_elements st ∖ provided st
      ∧ ({["A"; "B"]} : gset string) ∩ provided st = ∅.
Proof.
  assert (expand_dependencies tree_os_below None forwards 5 ["A"] (Some "/e")
          = (Return {["A"; "B"]}, os_below_trace)) as Hrun
    by (vm_compute; reflexivity).
  split; [exact Hrun|].
  exact (result_disjoint_from_provided tree_os_below None forwards (Some "/e")
           5 ["A"] {["A"; "B"]} os_below_trace Hrun).
Defined.

Lemma operating_system_checked_first_witness :
  while_check_queue tree_conflict_no_os None forwards 5 (Some "/e")
    (initial_state ["A"; "V"])
  = (Return conflict_no_os_final, conflict_trace)
  ∧ (expand_dependencies tree_conflict_no_os None forwards 5 ["A"; "V"] (Some "/e")
     = (Fail MissingOperatingSystem, conflict_trace)
     ↔ "operating-system" ∉ provided conflict_no_os_final)
  ∧ ("operating-system" ∉ provided conflict_no_os_final →
     list_to_set ["A"; "V"] ∩ provided conflict_no_os_final ≠ (∅ : gset string) →
     expand_dependencies tree_conflict_no_os None forwards 5 ["A"; "V"] (Some "/e")
     = (Fail MissingOperatingSystem, conflict_trace)).
Proof.
  assert (while_check_queue tree_conflict_no_os None forwards 5 (Some "/e")
            (initial_state ["A"; "V"])
          = (Return conflict_no_os_final, conflict_trace)) as Hloop
    by (vm_compute; reflexivity).
  split; [exact Hloop|].
  exact (operating_system_checked_first tree_conflict_no_os None forwards (Some "/e")
           5 ["A"; "V"] conflict_no_os_final conflict_trace Hloop).
Defined.

Lemma conflict_detection_witness :
  while_check_queue tree_conflict None forwards 5 (Some "/e") (initial_state ["A"; "V"])
  = (Return conflict_final, conflict_trace)
  ∧ "operating-system" ∈ provided conflict_final
  ∧ ((∃ report,
         expand_dependencies tree_conflict None forwards 5 ["A"; "V"] (Some "/e")
         = (Fail (ConflictingElements report), conflict_trace))
     ↔ list_to_set ["A"; "V"] ∩ provided conflict_final ≠ (∅ : gset string)).
Proof.
  assert (while_check_queue tree_conflict None forwards 5 (Some "/e")
            (initial_state ["A"; "V"])
          = (Return conflict_final, conflict_trace)) as Hloop
    by (vm_compute; reflexivity).
  assert ("operating-system" ∈ provided conflict_final) as Hos by (vm_compute; set_solver).
  split; [exact Hloop|]. split; [exact Hos|].
  exact (proj1 (conflict_detection tree_conflict None forwards (Some "/e") forwards_perm
                  5 ["A"; "V"] conflict_final conflict_trace Hloop Hos)).
Defined.

Lemma skip_if_provided_witness :
  check_queue conflict_midway = "V" :: []
  ∧ "V" ∈ provided conflict_midway
  ∧ ∃ st',
      loop_body tree_conflict None forwards (Some "/e") "V" (popleft conflict_midway [])
      = (Return st', [])
      ∧ check_queue st' = []
      ∧ final_elements st' = final_elements conflict_midway
      ∧ provided st' = provided conflict_midway
      ∧ provided_by st' = provided_by conflict_midway
      ∧ ∀ fuel,
          while_check_queue tree_conflict None forwards (S fuel) (Some "/e") conflict_midway
          = while_check_queue tree_conflict None forwards fuel (Some "/e") st'.
Proof.
  assert ("V" ∈ provided conflict_midway) as Hin by (simpl; set_solver).
  split; [reflexivity|]. split; [exact Hin|].
  exact (skip_if_provided tree_conflict None forwards (Some "/e")
           conflict_midway "V" [] eq_refl Hin).
Defined.

Lemma expansion_terminates_witness :
  (∀ e ds t, dependencies tree_chain None e (Some "/e") = (Return ds, t) →
             ds ⊆ ({["B"; "C"; "operating-system"]} : gset string))
  ∧ fst (expand_dependencies tree_chain None forwards 4 ["A"] (Some "/e")) ≠ OutOfFuel.
Proof.
  assert (∀ e ds t, dependencies tree_chain None e (Some "/e") = (Return ds, t) →
                    ds ⊆ ({["B"; "C"; "operating-system"]} : gset string)) as Hwithin.
  { apply table_fs_names_within.
    repeat (apply Forall_cons; split; [intros lines [= <-]; compute_done|]).
    apply Forall_nil_2. }
  split; [exact Hwithin|].
  apply (proj1 (expansion_terminates tree_chain None forwards (Some "/e") forwards_perm
                  {["B"; "C"; "operating-system"]} Hwithin)).
  compute_done.
Defined.

Lemma order_independence_when_nothing_provided_away_witness :
  list_to_set ["A"; "B"] = (list_to_set ["B"; "A"] : gset string)
  ∧ while_check_queue tree_chain None forwards 5 (Some "/e") (initial_state ["A"; "B"])
    = (Return chain_final, chain_trace)
  ∧ final_elements chain_final ∩ provided chain_final = ∅
  ∧ ∃ fuel2 st2 t2,
      while_check_queue tree_chain None backwards fuel2 (Some "/e")
        (initial_state ["B"; "A"])
      = (Return st2, t2)
      ∧ final_elements st2 = final_elements chain_final
      ∧ provided st2 = provided chain_final
      ∧ fst (expand_dependencies tree_chain None backwards fuel2 ["B"; "A"] (Some "/e"))
        = fst (expand_dependencies tree_chain None forwards 5 ["A"; "B"] (Some "/e")).
Proof.
  assert (list_to_set ["A"; "B"] = (list_to_set ["B"; "A"] : gset string)) as Hsame
    by (vm_compute; reflexivity).
  assert (while_check_queue tree_chain None forwards 5 (Some "/e")
            (initial_state ["A"; "B"])
          = (Return chain_final, chain_trace)) as Hloop
    by (vm_compute; reflexivity).
  assert (final_elements chain_final ∩ provided chain_final = ∅) as Hdisj
    by (vm_compute; reflexivity).
  split; [exact Hsame|]. split; [exact Hloop|]. split; [exact Hdisj|].
  exact (order_independence_when_nothing_provided_away tree_chain None (Some "/e")
           forwards backwards forwards_perm backwards_perm
           ["A"; "B"] ["B"; "A"] 5 chain_final chain_trace Hsame Hloop Hdisj).
Defined.

Lemma idempotence_when_providers_survive_witness :
  while_check_queue tree_os_below None forwards 5 (Some "/e") (initial_state ["A"])
  = (Return os_below_final, os_below_trace)
  ∧ expand_dependencies tree_os_below None forwards 5 ["A"] (Some "/e")
    = (Return {["A"; "B"]}, os_below_trace)
  ∧ (∀ name, name ∈ provided os_below_final →
             ∃ x ps tx, x ∈ ({["A"; "B"]} : gset string)
                        ∧ provides tree_os_below None x (Some "/e") = (Return ps, tx)
                        ∧ name ∈ ps)
  ∧ list_to_set ["B"; "A"] = ({["A"; "B"]} : gset string)
  ∧ ∃ fuel2 t2,
      expand_dependencies tree_os_below None backwards fuel2 ["B"; "A"] (Some "/e")
      = (Return {["A"; "B"]}, t2).
Proof.
  assert (while_check_queue tree_os_below None forwards 5 (Some "/e")
            (initial_state ["A"])
          = (Return os_below_final, os_below_trace)) as Hloop
    by (vm_compute; reflexivity).
  assert (expand_dependencies tree_os_below None forwards 5 ["A"] (Some "/e")
          = (Return {["A"; "B"]}, os_below_trace)) as Hrun
    by (vm_compute; reflexivity).
  assert (∀ name, name ∈ provided os_below_final →
                  ∃ x ps tx, x ∈ ({["A"; "B"]} : gset string)
                             ∧ provides tree_os_below None x (Some "/e") = (Return ps, tx)
                             ∧ name ∈ ps) as Hprov.
  { intros name Hname. exists "B", {["operating-system"]}, [AccOpen "/e/B/element-provides"].
    split; [set_solver|]. split; [vm_compute; reflexivity|].
    simpl in Hname. set_solver. }
  assert (list_to_set ["B"; "A"] = ({["A"; "B"]} : gset string)) as Hsame
    by (vm_compute; reflexivity).
  split; [exact Hloop|]. split; [exact Hrun|]. split; [exact Hprov|]. split; [exact Hsame|].
  exact (idempotence_when_providers_survive tree_os_below None (Some "/e")
           forwards backwards forwards_perm backwards_perm
           ["A"] 5 os_below_final os_below_trace {["A"; "B"]} ["B"; "A"]
           Hloop Hrun
           (λ x y ps tx, closure_provides_outside tree_os_below None forwards (Some "/e")
                           forwards_perm 5 ["A"] {["A"; "B"]} os_below_trace x y ps tx Hrun)
           Hprov Hsame).
Defined.

(** ** Where the specification and the program part *)

(** C5. The search path [/e] is a regular file: no directory on the path
    contains [/e/C], yet the lookup of [C] does not fail with
    [ElementNotFound]: the [IOError] of the open is raised again. *)
Lemma lookup_reraises_io_error :
  Forall (λ path, os_path_exists tree_not_a_directory (Py.os_path_join path ["C"]) = false)
         (Py.split ":" "/e")
  ∧ _get_set tree_not_a_directory None "C" "element-deps" (Some "/e")
    = (Fail (IOError ENOTDIR), [AccOpen "/e/C/element-deps"; AccExists "/e/C"]).
Proof.
  split; [|vm_compute; reflexivity].
  change (Py.split ":" "/e") with ["/e"]. by repeat constructor.
Qed.

(** C7. One request, one store, two set orders: when [C] is taken before
    [B], which provides it, the dependency [D] of [C] is pulled in; when
    [B] comes first, [C] is skipped and [D] is never seen. *)
Lemma order_changes_result :
  fst (expand_dependencies tree_virtual_with_deps None forwards 5 ["A"] (Some "/e"))
  = Return {["A"; "B"; "D"]}
  ∧ fst (expand_dependencies tree_virtual_with_deps None backwards 5 ["A"] (Some "/e"))
    = Return {["A"; "B"]}
  ∧ ({["A"; "B"; "D"]} : gset string) ≠ {["A"; "B"]}.
Proof.
  split; [vm_compute; reflexivity|]. split; [vm_compute; reflexivity|].
  intros Heq. assert ("D" ∈ ({["A"; "B"]} : gset string)) as Hin
    by (rewrite <- Heq; set_solver).
  set_solver.
Qed.

(** C8. The run on [A] returns [{A, C}]: [B], the only provider of
    "operating-system", is subtracted because [C] provides it. No element
    of [{A, C}] provides a member of it, yet requesting [{A, C}], in either
    order, fails with [MissingOperatingSystem]: [B] is now skipped. *)
Lemma rerun_misses_operating_system :
  fst (expand_dependencies tree_provider_provided None forwards 5 ["A"] (Some "/e"))
  = Return {["A"; "C"]}
  ∧ (∀ x y ps tx,
        x ∈ ({["A"; "C"]} : gset string) → y ∈ ({["A"; "C"]} : gset string) →
        provides tree_provider_provided None x (Some "/e") = (Return ps, tx) → y ∉ ps)
  ∧ fst (expand_dependencies tree_provider_provided None forwards 5 ["A"; "C"] (Some "/e"))
    = Fail MissingOperatingSystem
  ∧ fst (expand_dependencies tree_provider_provided None forwards 5 ["C"; "A"] (Some "/e"))
    = Fail MissingOperatingSystem.
Proof.
  split; [vm_compute; reflexivity|].
  split; [|split; vm_compute; reflexivity].
  intros x y ps tx.
  eapply (closure_provides_outside tree_provider_provided None forwards (Some "/e")
            forwards_perm 5 ["A"]).
  vm_compute. reflexivity.
Qed.

(** ** The scenarios of the specification *)

(** Scenario 1: [B] stays in the result; only "operating-system" is
    subtracted. *)
Example scenario_os_below :
  fst (expand_dependencies tree_os_below None forwards 5 ["A"] (Some "/e"))
  = Return {["A"; "B"]}.
Proof. vm_compute. reflexivity. Qed.

(** Scenario 5: the chain is followed to its end. *)
Example scenario_chain :
  fst (expand_dependencies tree_chain None forwards 5 ["A"] (Some "/e"))
  = Return {["A"; "B"; "C"]}.
Proof. vm_compute. reflexivity. Qed.

(** Scenario 3, with an operating system provided: the conflict names [V]
    and its provider [A]. *)
Example scenario_conflict :
  expand_dependencies tree_conflict None forwards 5 ["A"; "V"] (Some "/e")
  = (Fail (ConflictingElements [("V", ["A"])]), conflict_trace).
Proof. vm_compute. reflexivity. Qed.

(** Scenario 4: an element with no directory on the search path. *)
Example scenario_element_not_found :
  fst (expand_dependencies tree_chain None forwards 5 ["Z"] (Some "/e:/f"))
  = Fail (ElementNotFound "Z" "/e:/f").
Proof. vm_compute. reflexivity. Qed.

(** A blank line in a file is a member of the set, as the empty string. *)
Example blank_line_is_a_member :
  fst (_get_set (table_fs [("/e/A/element-deps", Opened ["B" +:+ LF; LF; "  C "])] ["/e/A"])
         None "A" "element-deps" (Some "/e"))
  = Return {["B"; ""; "C"]}.
Proof. vm_compute. reflexivity. Qed.

(** An unset or empty [$ELEMENTS_PATH] fails before any lookup. *)
Example elements_path_must_be_set :
  _get_set tree_chain None "A" "element-deps" None = (Fail ElementsPathNotSet, [])
  ∧ _get_set tree_chain (Some "") "A" "element-deps" None = (Fail ElementsPathNotSet, []).
Proof. split; reflexivity. Qed.

(** ** The search path taken from the environment *)

Section SearchPath.

Variable fs : filesystem.
Variable set_iter : gset string → list string.

Lemma loop_body_default d element st :
  d ≠ EmptyString →
  loop_body fs (Some d) set_iter None element st
  = loop_body fs (Some d) set_iter (Some d) element st.
Proof.
  intros Hd. unfold loop_body, dependencies, provides.
  by rewrite !(get_set_default fs (Some d) _ _ d eq_refl Hd).
Qed.

Lemma while_default d fuel st :
  d ≠ EmptyString →
  while_check_queue fs (Some d) set_iter fuel None st
  = while_check_queue fs (Some d) set_iter fuel (Some d) st.
Proof.
  intros Hd. revert st. induction fuel as [|fuel IH]; intros st; simpl; [done|].
  destruct (check_queue st) as [|element rest]; [done|].
  rewrite (loop_body_default d _ _ Hd). unfold bind.
  destruct (loop_body fs (Some d) set_iter (Some d) element (popleft st rest))
    as [[st'| |] t]; [|done..].
  by rewrite IH.
Qed.

(** X10. The search path defaults to [$ELEMENTS_PATH]: when the variable
    is set and not empty, a call without [elements_dir] is the call with
    the value of the variable, in its outcome and in its file-system
    calls. *)
Theorem expansion_defaults_to_environment d fuel user_elements :
  d ≠ EmptyString →
  expand_dependencies fs (Some d) set_iter fuel user_elements None
  = expand_dependencies fs (Some d) set_iter fuel user_elements (Some d).
Proof.
  intros Hd. unfold expand_dependencies. by rewrite (while_default d _ _ Hd).
Qed.

(** X11. Without a search path nothing is looked up: when [elements_dir]
    is not given and [$ELEMENTS_PATH] is unset or empty, a call with a
    request that is not empty fails at its first element, before any
    file-system call. *)
Theorem unset_search_path_fails_first fuel element rest :
  expand_dependencies fs None set_iter (S fuel) (element :: rest) None
  = (Fail ElementsPathNotSet, [])
  ∧ expand_dependencies fs (Some EmptyString) set_iter (S fuel) (element :: rest) None
    = (Fail ElementsPathNotSet, []).
Proof.
  split; unfold expand_dependencies; simpl; unfold loop_body; simpl;
    rewrite decide_False by apply not_elem_of_empty; reflexivity.
Qed.

End SearchPath.

(** ** The further properties at work on the sample trees *)

Lemma lookup_path_ignores_directory_witness :
  (Py.startswith_sep "/etc" = true
   ∨ ("/e" = EmptyString ∧ Py.startswith_sep "/etc" = false))
  ∧ Py.os_path_join "/e" ["/etc"; "element-deps"] = Py.os_path_join "/etc" ["element-deps"]
  ∧ Py.os_path_join "/e" ["/etc"] = "/etc"
  ∧ probe "/etc" "element-deps" "/e" = probe "/etc" "element-deps" EmptyString.
Proof.
  assert (Py.startswith_sep "/etc" = true
          ∨ ("/e" = EmptyString ∧ Py.startswith_sep "/etc" = false)) as Hcase
    by (left; reflexivity).
  split; [exact Hcase|].
  exact (lookup_path_ignores_directory "/e" "/etc" "element-deps" Hcase).
Defined.

Lemma lookup_names_are_stripped_witness :
  _get_set tree_chain None "A" "element-deps" (Some "/e")
  = (Return {["B"]}, [AccOpen "/e/A/element-deps"])
  ∧ "B" ∈ ({["B"]} : gset string)
  ∧ Py.strip "B" = "B".
Proof.
  assert (_get_set tree_chain None "A" "element-deps" (Some "/e")
          = (Return {["B"]}, [AccOpen "/e/A/element-deps"])) as Hlookup
    by (vm_compute; reflexivity).
  assert ("B" ∈ ({["B"]} : gset string)) as Hin by set_solver.
  split; [exact Hlookup|]. split; [exact Hin|].
  exact (lookup_names_are_stripped tree_chain None "A" "element-deps" (Some "/e")
           {["B"]} [AccOpen "/e/A/element-deps"] "B" Hlookup Hin).
Defined.


Lemma result_is_required_witness :
  expand_dependencies tree_chain None forwards 5 ["A"; "B"] (Some "/e")
  = (Return {["A"; "B"; "C"]}, chain_trace)
  ∧ ∀ x, x ∈ ({["A"; "B"; "C"]} : gset string) →
         required tree_chain None (Some "/e") ["A"; "B"] x.
Proof.
  assert (expand_dependencies tree_chain None forwards 5 ["A"; "B"] (Some "/e")
          = (Return {["A"; "B"; "C"]}, chain_trace)) as Hrun
    by (vm_compute; reflexivity).
  split; [exact Hrun|].
  destruct (result_is_required tree_chain None forwards (Some "/e") forwards_perm
              5 ["A"; "B"] {["A"; "B"; "C"]} chain_trace Hrun)
    as (st & _ & _ & Hresult & _).
  exact Hresult.
Defined.

Lemma element_not_found_is_absent_witness :
  expand_dependencies tree_chain None forwards 5 ["Z"] (Some "/e:/f")
  = (Fail (ElementNotFound "Z" "/e:/f"),
     [AccOpen "/e/Z/element-deps"; AccExists "/e/Z";
      AccOpen "/f/Z/element-deps"; AccExists "/f/Z"])
  ∧ required tree_chain None (Some "/e:/f") ["Z"] "Z"
  ∧ (∀ d', Some "/e:/f" = Some d' → "/e:/f" = d')
  ∧ Forall (λ path, os_path_exists tree_chain (Py.os_path_join path ["Z"]) = false)
           (Py.split ":" "/e:/f").
Proof.
  assert (expand_dependencies tree_chain None forwards 5 ["Z"] (Some "/e:/f")
          = (Fail (ElementNotFound "Z" "/e:/f"),
             [AccOpen "/e/Z/element-deps"; AccExists "/e/Z";
              AccOpen "/f/Z/element-deps"; AccExists "/f/Z"])) as Hrun
    by (vm_compute; reflexivity).
  split; [exact Hrun|].
  exact (element_not_found_is_absent tree_chain None forwards (Some "/e:/f") forwards_perm
           5 ["Z"] "Z" "/e:/f" _ Hrun).
Defined.

Lemma result_keeps_request_witness :
  expand_dependencies tree_chain None forwards 5 ["A"; "B"] (Some "/e")
  = (Return {["A"; "B"; "C"]}, chain_trace)
  ∧ (∀ x, x ∈ ["A"; "B"] → x ∈ ({["A"; "B"; "C"]} : gset string))
  ∧ "operating-system" ∉ ({["A"; "B"; "C"]} : gset string).
Proof.
  assert (expand_dependencies tree_chain None forwards 5 ["A"; "B"] (Some "/e")
          = (Return {["A"; "B"; "C"]}, chain_trace)) as Hrun
    by (vm_compute; reflexivity).
  split; [exact Hrun|].
  exact (result_keeps_request tree_chain None forwards (Some "/e") forwards_perm
           5 ["A"; "B"] {["A"; "B"; "C"]} chain_trace Hrun).
Defined.

Lemma run_only_adds_witness :
  while_check_queue tree_conflict None forwards 5 (Some "/e") conflict_midway
  = (Return conflict_final, [])
  ∧ final_elements conflict_midway ⊆ final_elements conflict_final
  ∧ provided conflict_midway ⊆ provided conflict_final
  ∧ ∀ name, provided_by_get (provided_by conflict_midway) name
            `prefix_of` provided_by_get (provided_by conflict_final) name.
Proof.
  assert (while_check_queue tree_conflict None forwards 5 (Some "/e") conflict_midway
          = (Return conflict_final, [])) as Hloop
    by (vm_compute; reflexivity).
  split; [exact Hloop|].
  exact (run_only_adds tree_conflict None forwards (Some "/e") forwards_perm
           5 conflict_midway conflict_final [] Hloop).
Defined.

Lemma providers_listed_once_witness :
  NoDup ["A"; "V"]
  ∧ while_check_queue tree_conflict None forwards 5 (Some "/e") (initial_state ["A"; "V"])
    = (Return conflict_final, conflict_trace)
  ∧ ∀ name, NoDup (provided_by_get (provided_by conflict_final) name).
Proof.
  assert (NoDup ["A"; "V"]) as Hnd by compute_done.
  assert (while_check_queue tree_conflict None forwards 5 (Some "/e")
            (initial_state ["A"; "V"])
          = (Return conflict_final, conflict_trace)) as Hloop
    by (vm_compute; reflexivity).
  split; [exact Hnd|]. split; [exact Hloop|].
  exact (providers_listed_once tree_conflict None forwards (Some "/e") forwards_perm
           5 ["A"; "V"] conflict_final conflict_trace Hnd Hloop).
Defined.

Lemma expansion_defaults_to_environment_witness :
  "/e" ≠ EmptyString
  ∧ expand_dependencies tree_chain (Some "/e") forwards 5 ["A"] None
    = expand_dependencies tree_chain (Some "/e") forwards 5 ["A"] (Some "/e").
Proof.
  assert ("/e" ≠ EmptyString) as Hset by discriminate.
  split; [exact Hset|].
  exact (expansion_defaults_to_environment tree_chain forwards "/e" 5 ["A"] Hset).
Defined.

(** A request that lists an element twice expands it twice, and then lists
    it twice as a provider. *)
Example repeated_request_repeats_provider :
  expand_dependencies tree_conflict None forwards 5 ["A"; "A"; "V"] (Some "/e")
  = (Fail (ConflictingElements [("V", ["A"; "A"])]),
     conflict_trace ++ conflict_trace).
Proof. vm_compute. reflexivity. Qed.

Lemma expansion_accesses_confined_witness :
  Some "/e" = Some "/e"
  ∧ AccOpen "/e/B/element-provides"
    ∈ snd (expand_dependencies tree_os_below None forwards 5 ["A"] (Some "/e"))
  ∧ ∃ e path,
      required tree_os_below None (Some "/e") ["A"] e
      ∧ path ∈ Py.split ":" "/e"
      ∧ (AccOpen "/e/B/element-provides" = AccOpen (Py.os_path_join path [e; "element-deps"])
         ∨ AccOpen "/e/B/element-provides"
           = AccOpen (Py.os_path_join path [e; "element-provides"])
         ∨ AccOpen "/e/B/element-provides" = AccExists (Py.os_path_join path [e])).
Proof.
  assert (AccOpen "/e/B/element-provides"
          ∈ snd (expand_dependencies tree_os_below None forwards 5 ["A"] (Some "/e")))
    as Hin.
  { assert (snd (expand_dependencies tree_os_below None forwards 5 ["A"] (Some "/e"))
            = os_below_trace) as -> by (vm_compute; reflexivity).
    unfold os_below_trace. set_solver. }
  split; [reflexivity|]. split; [exact Hin|].
  exact (expansion_accesses_confined tree_os_below None forwards (Some "/e") forwards_perm
           "/e" 5 ["A"] (AccOpen "/e/B/element-provides") eq_refl Hin).
Defined.
